(** * tasuki2sgf: a shallow embedding of [src/tasuki2sgf.py]

    Python values are modelled as follows.
    - A Python [str] is a list of Unicode code points ([pystr := list Z]);
      literals are written [ustr "..."] (ASCII only).
    - An exception is a value of [exn]; fallible code returns [result].
    - A Python [set] is kept as its elements in the order they were first
      added ([set_of], [add_label]).  Nothing is ever removed from the
      sets of this program, so that sequence determines CPython's hash
      table and hence its iteration order, which [py_set_iter] computes by
      replaying the insertions (hashes of [int] and [tuple], open
      addressing with linear probes and perturbation, resizing).
    - [bytes] are a list of integers in [0, 256). *)

From Stdlib Require Import ZArith List String Ascii Bool Lia.
From Stdlib Require Import Sorting.Permutation Sorting.Sorted.
Import ListNotations.
Open Scope Z_scope.

(** ** Python runtime fragment *)

Definition pystr := list Z.

Definition ustr (s : string) : pystr :=
  map (fun a => Z.of_nat (nat_of_ascii a)) (list_ascii_of_string s).

Inductive exn :=
| AssertionError
| AttributeError
| ValueError
| UnicodeEncodeError
| CollaboratorError.

Inductive result (A : Type) :=
| Ok (a : A)
| Err (e : exn).
Arguments Ok {A} a.
Arguments Err {A} e.

Definition bind {A B} (m : result A) (f : A -> result B) : result B :=
  match m with Ok a => f a | Err e => Err e end.

Notation "x <- m ;; k" := (bind m (fun x => k))
  (at level 61, m at next level, right associativity).

Definition str_eqb (a b : pystr) : bool :=
  if list_eq_dec Z.eq_dec a b then true else false.

(** [p] is a prefix of [s]. *)
Fixpoint is_prefix (p s : pystr) : bool :=
  match p, s with
  | [], _ => true
  | a :: p', b :: s' => Z.eqb a b && is_prefix p' s'
  | _ :: _, [] => false
  end.

(** Python's [sub in s] on strings: substring test. *)
Fixpoint contains (sub s : pystr) : bool :=
  is_prefix sub s || match s with [] => false | _ :: r => contains sub r end.

(** Python's [s.replace(old, new)] for a non-empty [old] (all call sites
    pass a non-empty literal): non-overlapping occurrences, left to right.
    [skip] counts the characters of a replaced occurrence still to drop. *)
Fixpoint replace_from (old new : pystr) (skip : nat) (s : pystr) : pystr :=
  match s with
  | [] => []
  | c :: r =>
      match skip with
      | S k => replace_from old new k r
      | O =>
          if is_prefix old s
          then new ++ replace_from old new (Nat.pred (List.length old)) r
          else c :: replace_from old new O r
      end
  end.

Definition py_replace (s old new : pystr) : pystr := replace_from old new O s.

(** Python's [s.split("\n")]. *)
Fixpoint split_nl (s : pystr) : list pystr :=
  match s with
  | [] => [[]]
  | c :: r =>
      let parts := split_nl r in
      if Z.eqb c 10 then [] :: parts
      else match parts with
           | p :: ps => (c :: p) :: ps
           | [] => [[c]]
           end
  end.

(** Python's [chr]: defined on [0, 0x110000), [ValueError] elsewhere. *)
Definition chr (n : Z) : result pystr :=
  if (0 <=? n) && (n <? 1114112) then Ok [n] else Err ValueError.

(** Python's [str.upper] on ASCII letters (the inputs considered below are
    ASCII; other code points are left unchanged). *)
Definition upper_cp (c : Z) : Z := if (97 <=? c) && (c <=? 122) then c - 32 else c.
Definition upper (s : pystr) : pystr := map upper_cp s.

(** Decimal rendering of an integer, as [f"{n}"]. *)
Fixpoint digits_of_nat (fuel : nat) (n : Z) (acc : pystr) : pystr :=
  match fuel with
  | O => acc
  | S f =>
      let acc' := (48 + n mod 10) :: acc in
      if n <? 10 then acc' else digits_of_nat f (n / 10) acc'
  end.

Definition dec_string (n : Z) : pystr :=
  if n <? 0 then 45 :: digits_of_nat (S (Z.to_nat (- n))) (- n) []
  else digits_of_nat (S (Z.to_nat n)) n [].

(** [str(n)] (as in [f"{n}"]): [ValueError] beyond the default limit of
    4300 decimal digits ([sys.get_int_max_str_digits()]). *)
Definition int_max_str_digits : Z := 4300.

Definition z_to_dec (n : Z) : result pystr :=
  if 10 ^ int_max_str_digits <=? Z.abs n then Err ValueError else Ok (dec_string n).

(** [str.encode("utf-8")]: lone surrogates cannot be encoded. *)
Definition utf8_cp (c : Z) : result (list Z) :=
  if c <? 128 then Ok [c]
  else if c <? 2048 then Ok [192 + c / 64; 128 + c mod 64]
  else if (55296 <=? c) && (c <? 57344) then Err UnicodeEncodeError
  else if c <? 65536 then
    Ok [224 + c / 4096; 128 + (c / 64) mod 64; 128 + c mod 64]
  else Ok [240 + c / 262144; 128 + (c / 4096) mod 64;
           128 + (c / 64) mod 64; 128 + c mod 64].

Fixpoint encode_utf8 (s : pystr) : result (list Z) :=
  match s with
  | [] => Ok []
  | c :: r => b <- utf8_cp c;; bs <- encode_utf8 r;; Ok (b ++ bs)
  end.

(** [set(xs)]: first occurrences kept, in order. *)
Fixpoint set_of {A} (eqb : A -> A -> bool) (xs : list A) (seen : list A) : list A :=
  match xs with
  | [] => []
  | x :: r =>
      if existsb (eqb x) seen then set_of eqb r seen
      else x :: set_of eqb r (x :: seen)
  end.

Definition coord_eqb (p q : Z * Z) : bool :=
  Z.eqb (fst p) (fst q) && Z.eqb (snd p) (snd q).

Definition mark_eqb (p q : pystr * Z * Z) : bool :=
  match p, q with
  | (l, r, c), (l', r', c') => str_eqb l l' && Z.eqb r r' && Z.eqb c c'
  end.


(** ** CPython's [set] iteration order (64-bit build) *)

Definition M64 : Z := 2 ^ 64.
Definition u64 (x : Z) : Z := x mod M64.

(** [hash(n)] for an [int]: [|n|] reduced modulo [2**61 - 1], with the sign
    of [n]; [-1] is replaced by [-2]. *)
Definition py_hash_int (n : Z) : Z :=
  let P := 2 ^ 61 - 1 in
  let r := if n <? 0 then - ((- n) mod P) else n mod P in
  if r =? -1 then -2 else r.

Definition XXPRIME_1 : Z := 11400714785074694791.
Definition XXPRIME_2 : Z := 14029467366897019727.
Definition XXPRIME_5 : Z := 2870177450012600261.

(** [_PyHASH_XXROTATE]: rotation left by 31 bits of a 64-bit word. *)
Definition xxrotate (x : Z) : Z := Z.lor (u64 (Z.shiftl x 31)) (Z.shiftr x 33).

(** [tuplehash] on the hashes of the items, as an unsigned 64-bit word. *)
Definition tuple_hash (lanes : list Z) : Z :=
  let acc := fold_left (fun acc lane =>
                u64 (xxrotate (u64 (acc + u64 lane * XXPRIME_2)) * XXPRIME_1))
              lanes XXPRIME_5 in
  let acc := u64 (acc + Z.lxor (Z.of_nat (List.length lanes)) (Z.lxor XXPRIME_5 3527539)) in
  if acc =? M64 - 1 then 1546275796 else acc.

(** The hash table of a set: [None] is an unused slot, [Some (key, hash)]
    an active one; its length is [mask + 1]. *)
Definition table (A : Type) := list (option (A * Z)).

(** The slots [j], ..., [j + n - 1]: the first unused one ([false]) or the
    first holding the key ([true]). *)
Fixpoint scan {A} (eqb : A -> A -> bool) (tbl : table A) (x : A) (h : Z) (j : Z) (n : nat)
  : option (Z * bool) :=
  match n with
  | O => None
  | S n' =>
      match nth_error tbl (Z.to_nat j) with
      | Some None => Some (j, false)
      | Some (Some (y, hy)) =>
          if (hy =? h) && eqb y x then Some (j, true) else scan eqb tbl x h (j + 1) n'
      | None => None
      end
  end.

(** The probe loop of [set_add_entry] and [set_insert_clean]: from slot [i],
    the slot and [LINEAR_PROBES = 9] more when they fit below [mask], then
    [perturb >>= PERTURB_SHIFT] (5) and [i = (i * 5 + 1 + perturb) & mask]. *)
Fixpoint find_slot {A} (eqb : A -> A -> bool) (tbl : table A) (mask : Z) (x : A) (h : Z)
    (fuel : nat) (i perturb : Z) : option (Z * bool) :=
  match fuel with
  | O => None
  | S f =>
      match scan eqb tbl x h i (if i + 9 <=? mask then 10%nat else 1%nat) with
      | Some r => Some r
      | None =>
          let perturb' := Z.shiftr perturb 5 in
          find_slot eqb tbl mask x h f (Z.land (i * 5 + 1 + perturb') mask) perturb'
      end
  end.

(** The table is never full, and once [perturb] is 0 (after at most 13
    rounds) [i -> 5 i + 1] visits every slot: [mask + 15] rounds find a
    slot. *)
Definition slot_search {A} (eqb : A -> A -> bool) (tbl : table A) (x : A) (h : Z)
  : option (Z * bool) :=
  let mask := Z.of_nat (List.length tbl) - 1 in
  find_slot eqb tbl mask x h (Z.to_nat (mask + 1) + 14) (Z.land (u64 h) mask) (u64 h).

Definition put {A} (tbl : table A) (j : Z) (e : A * Z) : table A :=
  firstn (Z.to_nat j) tbl ++ Some e :: skipn (S (Z.to_nat j)) tbl.

(** [so->fill] (no entry is ever deleted, so it equals [so->used]). *)
Definition fill {A} (tbl : table A) : Z :=
  Z.of_nat (List.length (filter (fun o => match o with Some _ => true | None => false end) tbl)).

(** [set_table_resize]: the smallest power of two from [PySet_MINSIZE = 8]
    above [minused]. *)
Fixpoint new_size (fuel : nat) (n minused : Z) : Z :=
  match fuel with
  | O => n
  | S f => if n <=? minused then new_size f (2 * n) minused else n
  end.

Definition insert_clean {A} (eqb : A -> A -> bool) (tbl : table A) (o : option (A * Z))
  : table A :=
  match o with
  | None => tbl
  | Some (x, h) =>
      match slot_search eqb tbl x h with
      | Some (j, _) => put tbl j (x, h)
      | None => tbl
      end
  end.

(** The active entries are re-inserted in the order of the old table. *)
Definition table_resize {A} (eqb : A -> A -> bool) (tbl : table A) (minused : Z) : table A :=
  fold_left (insert_clean eqb) tbl (repeat None (Z.to_nat (new_size 64 8 minused))).

(** [set_add_entry]: a key already present leaves the table unchanged;
    otherwise it takes the slot found, and the table is resized when
    [fill * 5 >= mask * 3]. *)
Definition set_add {A} (eqb : A -> A -> bool) (hash : A -> Z) (tbl : table A) (x : A)
  : table A :=
  let h := hash x in
  let mask := Z.of_nat (List.length tbl) - 1 in
  match slot_search eqb tbl x h with
  | Some (j, false) =>
      let tbl' := put tbl j (x, h) in
      let used := fill tbl' in
      if used * 5 <? mask * 3 then tbl'
      else table_resize eqb tbl' (if 50000 <? used then used * 2 else used * 4)
  | _ => tbl
  end.

(** Iteration over the set whose elements were added in the order [xs],
    starting from an empty set (8 slots): the active slots in table order. *)
Definition py_set_iter {A} (eqb : A -> A -> bool) (hash : A -> Z) (xs : list A) : list A :=
  flat_map (fun o => match o with Some (x, _) => [x] | None => [] end)
           (fold_left (set_add eqb hash) xs (repeat None 8)).

Definition coord_hash (p : Z * Z) : Z :=
  tuple_hash [py_hash_int (fst p); py_hash_int (snd p)].

(** A label triple [(label, row, col)]; [str_hash] is the interpreter's
    [hash] on [str], which is salted per process ([PYTHONHASHSEED]). *)
Definition mark_hash (str_hash : pystr -> Z) (m : pystr * Z * Z) : Z :=
  let '(l, r, c) := m in tuple_hash [str_hash l; py_hash_int r; py_hash_int c].

(** ** [SimpleSGF] *)

Record SimpleSGF := mkSGF {
  size : Z;
  setup_black : list (Z * Z);
  setup_white : list (Z * Z);
  marks : list (pystr * Z * Z);
  comment : option pystr;
  player : pystr
}.

(** [SimpleSGF(size)]. *)
Definition new_sgf (sz : Z) : SimpleSGF :=
  mkSGF sz [] [] [] None (ustr "B").

Definition coord2letter (g : SimpleSGF) (row col : Z) : result pystr :=
  a <- chr (col + 97);;
  b <- chr (size g - row - 1 + 97);;
  Ok (a ++ b).

Definition set_setup_stones (g : SimpleSGF) (black white : list (Z * Z)) : SimpleSGF :=
  mkSGF (size g) (set_of coord_eqb black []) (set_of coord_eqb white [])
        (marks g) (comment g) (player g).

(** [self.marks.add((label, row, col))]. *)
Definition add_label (g : SimpleSGF) (label : pystr) (row col : Z) : SimpleSGF :=
  let m := (label, row, col) in
  mkSGF (size g) (setup_black g) (setup_white g)
        (if existsb (mark_eqb m) (marks g) then marks g else marks g ++ [m])
        (comment g) (player g).

Definition set_comment (g : SimpleSGF) (c : pystr) : SimpleSGF :=
  mkSGF (size g) (setup_black g) (setup_white g) (marks g) (Some c) (player g).

(** [assert player.upper() in "BW"; self.player = player.upper()]. *)
Definition set_player (g : SimpleSGF) (p : pystr) : result SimpleSGF :=
  if contains (upper p) (ustr "BW")
  then Ok (mkSGF (size g) (setup_black g) (setup_white g) (marks g)
                 (comment g) (upper p))
  else Err AssertionError.

(** [flip_colors]: the second [if] evaluates [self.player == "B"] and
    discards it, so it leaves the state unchanged. *)
Definition flip_colors (g : SimpleSGF) : SimpleSGF :=
  let g1 := mkSGF (size g) (setup_white g) (setup_black g) (marks g)
                  (comment g) (player g) in
  let g2 := if str_eqb (player g1) (ustr "B")
            then mkSGF (size g1) (setup_black g1) (setup_white g1) (marks g1)
                       (comment g1) (ustr "W")
            else g1 in
  if str_eqb (player g2) (ustr "W") then g2 else g2.

(** [s.join(f(x) for x in xs)] where [f] may raise. *)
Fixpoint join_map {A} (f : A -> result pystr) (xs : list A) : result pystr :=
  match xs with
  | [] => Ok []
  | x :: r => s <- f x;; t <- join_map f r;; Ok (s ++ t)
  end.

Definition bracket (s : pystr) : pystr := ustr "[" ++ s ++ ustr "]".

(** [SimpleSGF.serialize]: the text before [.encode("utf-8")].  The sets
    are visited in CPython's iteration order; [str_hash] is the
    interpreter's string hash (it orders the labels). *)
Definition serialize_text (str_hash : pystr -> Z) (g : SimpleSGF) : result pystr :=
  sz <- z_to_dec (size g);;
  let buf0 := ustr ";FF[4]GM[1]" ++ ustr "SZ[" ++ sz ++ ustr "]" in
  let buf1 := match comment g with
              | Some ((_ :: _) as c) => buf0 ++ ustr "
C[" ++ c ++ ustr "]"
              | _ => buf0
              end in
  let buf2 := match player g with
              | [] => buf1
              | p => buf1 ++ ustr "
PL[" ++ p ++ ustr "]"
              end in
  buf3 <- match setup_black g with
          | [] => Ok buf2
          | _ => j <- join_map (fun x => s <- coord2letter g (fst x) (snd x);;
                                         Ok (bracket s))
                               (py_set_iter coord_eqb coord_hash (setup_black g));;
                  Ok (buf2 ++ ustr "
AB" ++ j)
          end;;
  buf4 <- match setup_white g with
          | [] => Ok buf3
          | _ => j <- join_map (fun x => s <- coord2letter g (fst x) (snd x);;
                                         Ok (bracket s))
                               (py_set_iter coord_eqb coord_hash (setup_white g));;
                  Ok (buf3 ++ ustr "
AW" ++ j)
          end;;
  buf5 <- match marks g with
          | [] => Ok buf4
          | _ => j <- join_map (fun '(l, r, c) =>
                                  s <- coord2letter g r c;;
                                  Ok (bracket (s ++ ustr ":" ++ l)))
                               (py_set_iter mark_eqb (mark_hash str_hash) (marks g));;
                  Ok (buf4 ++ ustr "
LB" ++ j)
          end;;
  let buf6 := buf5 ++ ustr "
CA[UTF-8]" in
  Ok (ustr "(" ++ buf6 ++ ustr ")
").

Definition serialize (str_hash : pystr -> Z) (g : SimpleSGF) : result (list Z) :=
  t <- serialize_text str_hash g;; encode_utf8 t.

(** ** [tex2sgf] *)

(** The escape sequences removed before splitting into lines. *)
Definition lines_of (tex : pystr) : list pystr :=
  split_nl (py_replace (py_replace (py_replace tex (ustr "\0??") [])
                                   (ustr "\- ") [])
                       (ustr "\!  ") []).

(** The inner loop [for symbol in row]: returns the board, the two stone
    accumulators and the final value of [col_num]. *)
Fixpoint walk_row (row_num col_num : Z) (row : pystr) (g : SimpleSGF)
    (black white : list (Z * Z)) : SimpleSGF * list (Z * Z) * list (Z * Z) * Z :=
  match row with
  | [] => (g, black, white, col_num)
  | symbol :: rest =>
      let g' := if contains [symbol] (ustr "A-Z")
                then add_label g [symbol] (size g - 1 - row_num) col_num
                else g in
      if contains [symbol] (ustr "@!")
      then
        let p := (size g' - 1 - row_num, col_num) in
        if Z.eqb symbol 64 (* "@" -> "black" *)
        then walk_row row_num col_num rest g' (black ++ [p]) white
        else walk_row row_num col_num rest g' black (white ++ [p])
      else walk_row row_num (col_num + 1) rest g' black white
  end.

(** The outer loop [for row_num, row in enumerate(lines)]. *)
Fixpoint walk_lines (row_num : Z) (lines : list pystr) (g : SimpleSGF)
    (black white : list (Z * Z)) : SimpleSGF * list (Z * Z) * list (Z * Z) :=
  match lines with
  | [] => (g, black, white)
  | row :: rest =>
      let '(g', black', white', _) := walk_row row_num 0 row g black white in
      walk_lines (row_num + 1) rest g' black' white'
  end.

Definition tex2sgf (tex : pystr) : SimpleSGF :=
  let '(g, black, white) := walk_lines 0 (lines_of tex) (new_sgf 19) [] [] in
  set_setup_stones g black white.

(** Inverse of the two character maps of [coord2letter]: column letter
    [chr(col + 97)], row letter [chr(size - row - 1 + 97)]. *)
Definition letter2coord (sz : Z) (s : pystr) : option (Z * Z) :=
  match s with
  | [c1; c2] => Some (sz - 1 - (c2 - 97), c1 - 97)
  | _ => None
  end.

(** ** Theorems *)

(** C1 (code bug).  [flip_colors] swaps the two stone sets, so two calls
    restore them; but the player is only ever set to ["W"] (the second
    branch compares instead of assigning).  On the default board (Black to
    play) two calls leave White to play, and a White-to-play board stays
    White after one call. *)
Theorem flip_colors_player_not_involutive :
  (forall g, setup_black (flip_colors (flip_colors g)) = setup_black g /\
             setup_white (flip_colors (flip_colors g)) = setup_white g /\
             setup_black (flip_colors g) = setup_white g /\
             setup_white (flip_colors g) = setup_black g) /\
  player (new_sgf 19) = ustr "B" /\
  player (flip_colors (flip_colors (new_sgf 19))) = ustr "W" /\
  player (flip_colors (mkSGF 19 [] [] [] None (ustr "W"))) = ustr "W".
Proof.
  split; [|repeat split; reflexivity].
  intro g; unfold flip_colors.
  repeat match goal with
         | |- context [if ?b then _ else _] => destruct b
         end; cbn; repeat split; reflexivity.
Qed.

(** C3 (counterexample).  Parsing ["@!\n!@"] does not put a black stone at
    (17, 1): stone glyphs do not advance the column. *)
Lemma tex2sgf_two_by_two_no_black_17_1 :
  ~ In (17, 1) (setup_black (tex2sgf (ustr "@!" ++ [10] ++ ustr "!@"))).
Proof.
  vm_compute. intros [H | [H | H]]; congruence.
Qed.

(** C3 (amended).  Parsing ["@!\n!@"] at size 19 yields black stones
    {(18,0), (17,0)} and white stones {(18,0), (17,0)} (added in that
    order) and no label.  CPython iterates the set {(18,0), (17,0)} with
    (17,0) first (hash slots 1 and 3 of 8), so the serialized board
    carries [AB[ab][aa]] and [AW[ab][aa]], whatever the string hash. *)
Theorem tex2sgf_two_by_two_scenario :
  let g := tex2sgf (ustr "@!" ++ [10] ++ ustr "!@") in
  setup_black g = [(18, 0); (17, 0)] /\
  setup_white g = [(18, 0); (17, 0)] /\
  marks g = [] /\
  py_set_iter coord_eqb coord_hash (setup_black g) = [(17, 0); (18, 0)] /\
  (forall str_hash,
     serialize str_hash g =
       Ok (ustr "(;FF[4]GM[1]SZ[19]" ++ [10] ++ ustr "PL[B]" ++ [10] ++
           ustr "AB[ab][aa]" ++ [10] ++ ustr "AW[ab][aa]" ++ [10] ++
           ustr "CA[UTF-8])" ++ [10])).
Proof.
  cbv zeta. split; [vm_compute; reflexivity|].
  split; [vm_compute; reflexivity|]. split; [vm_compute; reflexivity|].
  split; [vm_compute; reflexivity|].
  intros str_hash. vm_compute. reflexivity.
Qed.

(** C4.  For every board size for which [chr] is defined on all letters
    (19 among them) and every [0 <= row, col < size], decoding the letter
    pair of [coord2letter] gives back [(row, col)]. *)
Theorem coord2letter_roundtrip (g : SimpleSGF) (row col : Z)
    (Hrow : 0 <= row < size g) (Hcol : 0 <= col < size g)
    (Hsz : size g + 97 <= 1114112) :
  exists s, coord2letter g row col = Ok s /\
            letter2coord (size g) s = Some (row, col).
Proof.
  unfold coord2letter, chr.
  replace ((0 <=? col + 97) && (col + 97 <? 1114112)) with true
    by (symmetry; apply andb_true_iff; split; [apply Z.leb_le | apply Z.ltb_lt]; lia).
  replace ((0 <=? size g - row - 1 + 97) && (size g - row - 1 + 97 <? 1114112))
    with true
    by (symmetry; apply andb_true_iff; split; [apply Z.leb_le | apply Z.ltb_lt]; lia).
  cbn. eexists; split; [reflexivity|].
  cbn. f_equal. f_equal; lia.
Qed.

Lemma coord2letter_roundtrip_witness :
  coord2letter (new_sgf 19) 3 5 = Ok [102; 112] /\
  exists s, coord2letter (new_sgf 19) 3 5 = Ok s /\
            letter2coord 19 s = Some (3, 5).
Proof.
  split; [reflexivity|].
  apply (coord2letter_roundtrip (new_sgf 19) 3 5); cbn; lia.
Defined.

(** C6 (code bug).  [symbol in "A-Z"] is a substring test, so only ["A"],
    ["-"] and ["Z"] become labels: ["B"] is not recorded, ["-"] is. *)
Theorem tex2sgf_label_set_is_A_dash_Z :
  marks (tex2sgf (ustr "B")) = [] /\
  marks (tex2sgf (ustr "-")) = [(ustr "-", 18, 0)] /\
  marks (tex2sgf (ustr ".B.A")) = [(ustr "A", 18, 3)].
Proof.
  vm_compute. repeat split.
Qed.

(** C7 (code bug).  [player.upper() in "BW"] is a substring test: the empty
    string and ["bw"] pass the assertion and are stored as the player. *)
Theorem set_player_accepts_substrings (g : SimpleSGF) :
  set_player g (ustr "") =
    Ok (mkSGF (size g) (setup_black g) (setup_white g) (marks g) (comment g) []) /\
  set_player g (ustr "bw") =
    Ok (mkSGF (size g) (setup_black g) (setup_white g) (marks g) (comment g)
              (ustr "BW")).
Proof.
  split; reflexivity.
Qed.

(** C8 (code bug, same defect as C1).  After [set_player("W")], a call to
    [flip_colors] leaves White to play. *)
Theorem flip_after_white_stays_white (g : SimpleSGF) :
  exists g', set_player g (ustr "W") = Ok g' /\
             player g' = ustr "W" /\
             player (flip_colors g') = ustr "W".
Proof.
  eexists; split; [reflexivity|]. split; reflexivity.
Qed.

(** ** Column accounting and coordinate ranges of [tex2sgf] *)

(** The test [symbol in "@!"] of the inner loop. *)
Definition stone_glyph (c : Z) : bool := contains [c] (ustr "@!").

Definition final_col (row_num col_num : Z) (row : pystr) (g : SimpleSGF)
    (black white : list (Z * Z)) : Z :=
  let '(_, _, _, c) := walk_row row_num col_num row g black white in c.

(** C2 (counterexample).  The line [".@.@"] (empty points alternating with
    black stones) has four characters but leaves the column counter at 2. *)
Lemma walk_row_alternating_counts_two :
  final_col 0 0 (ustr ".@.@") (new_sgf 19) [] [] = 2 /\
  List.length (ustr ".@.@") = 4%nat.
Proof.
  split; reflexivity.
Qed.

Lemma walk_row_col_count (row_num col_num : Z) (row : pystr) (g : SimpleSGF)
    (black white : list (Z * Z)) :
  final_col row_num col_num row g black white =
    col_num + Z.of_nat (List.length row) -
    Z.of_nat (List.length (filter stone_glyph row)).
Proof.
  unfold final_col.
  revert col_num g black white.
  induction row as [|sym rest IH]; intros col_num g black white.
  - cbn. lia.
  - cbn [walk_row filter].
    fold (stone_glyph sym).
    destruct (stone_glyph sym) eqn:E.
    + destruct (Z.eqb sym 64); rewrite IH; cbn [List.length]; lia.
    + rewrite IH. cbn [List.length]. lia.
Qed.

(** The column of the [k]-th character of [row] when the loop starts at
    column [c]: [k] minus the stone glyphs before it. *)
Definition col_at (c : Z) (row : pystr) (k : nat) : Z :=
  c + Z.of_nat k - Z.of_nat (List.length (filter stone_glyph (firstn k row))).

(** The positions [k] of [row] holding the code point [sym]. *)
Definition positions (sym : Z) (row : pystr) : list nat :=
  filter (fun k => Z.eqb (nth k row 0) sym) (seq 0 (List.length row)).

Lemma stone_glyph_eq (c : Z) : stone_glyph c = (Z.eqb c 64 || Z.eqb c 33).
Proof.
  unfold stone_glyph. change (ustr "@!") with [64; 33]. cbn [contains is_prefix].
  destruct (Z.eqb c 64), (Z.eqb c 33); reflexivity.
Qed.

Lemma add_label_size (g : SimpleSGF) (l : pystr) (r c : Z) :
  size (add_label g l r c) = size g.
Proof. reflexivity. Qed.

Lemma filter_map_S (f : nat -> bool) (l : list nat) :
  filter f (map S l) = map S (filter (fun k => f (S k)) l).
Proof.
  induction l as [|x l IH]; cbn; [reflexivity|].
  destruct (f (S x)); cbn; rewrite IH; reflexivity.
Qed.

Lemma positions_cons (sym x : Z) (rest : pystr) :
  positions sym (x :: rest) =
  (if Z.eqb x sym then [0%nat] else []) ++ map S (positions sym rest).
Proof.
  unfold positions. cbn [List.length seq]. rewrite <- seq_shift.
  cbn [filter nth]. rewrite filter_map_S. cbn [nth].
  destruct (Z.eqb x sym); reflexivity.
Qed.

Lemma col_at_S_stone (c : Z) (x : Z) (rest : pystr) (k : nat) :
  stone_glyph x = true -> col_at c (x :: rest) (S k) = col_at c rest k.
Proof.
  intros H. unfold col_at. cbn [firstn filter]. rewrite H. cbn [List.length]. lia.
Qed.

Lemma col_at_S_plain (c : Z) (x : Z) (rest : pystr) (k : nat) :
  stone_glyph x = false -> col_at c (x :: rest) (S k) = col_at (c + 1) rest k.
Proof.
  intros H. unfold col_at. cbn [firstn filter]. rewrite H. lia.
Qed.

Lemma col_at_0 (c : Z) (row : pystr) : col_at c row 0 = c.
Proof. unfold col_at. cbn. lia. Qed.

Lemma map_col_stone (a c x : Z) (rest : pystr) (l : list nat) :
  stone_glyph x = true ->
  map (fun k => (a, col_at c (x :: rest) (S k))) l = map (fun k => (a, col_at c rest k)) l.
Proof. intros E. apply map_ext. intros k. rewrite col_at_S_stone by exact E. reflexivity. Qed.

Lemma map_col_plain (a c x : Z) (rest : pystr) (l : list nat) :
  stone_glyph x = false ->
  map (fun k => (a, col_at c (x :: rest) (S k))) l = map (fun k => (a, col_at (c + 1) rest k)) l.
Proof. intros E. apply map_ext. intros k. rewrite col_at_S_plain by exact E. reflexivity. Qed.

Lemma walk_row_stones (row_num : Z) (row : pystr) :
  forall (c : Z) (g : SimpleSGF) (black white : list (Z * Z)),
  let '(_, black', white', _) := walk_row row_num c row g black white in
  black' = black ++ map (fun k => (size g - 1 - row_num, col_at c row k)) (positions 64 row) /\
  white' = white ++ map (fun k => (size g - 1 - row_num, col_at c row k)) (positions 33 row).
Proof.
  induction row as [|sym rest IH]; intros c g black white.
  - cbn. rewrite !app_nil_r. split; reflexivity.
  - cbn [walk_row]. rewrite !positions_cons.
    set (g' := if contains [sym] (ustr "A-Z")
               then add_label g [sym] (size g - 1 - row_num) c else g).
    assert (Hs : size g' = size g)
      by (unfold g'; destruct (contains _ _); reflexivity).
    fold (stone_glyph sym).
    destruct (stone_glyph sym) eqn:E.
    + assert (Hsym : sym = 64 \/ sym = 33).
      { rewrite stone_glyph_eq in E.
        destruct (Z.eqb_spec sym 64); [auto|]. destruct (Z.eqb_spec sym 33); [auto|].
        discriminate. }
      destruct (Z.eqb_spec sym 64) as [->|Hn64].
      * specialize (IH c g' (black ++ [(size g' - 1 - row_num, c)]) white).
        destruct (walk_row row_num c rest g' _ white) as [[[g2 b2] w2] c2].
        destruct IH as [-> ->]. rewrite Hs.
        cbn [Z.eqb Pos.eqb app map]. rewrite ?map_app, !map_map. cbv beta.
        rewrite !(map_col_stone _ _ _ _ _ E). cbn [map app].
        rewrite col_at_0, <- app_assoc. split; reflexivity.
      * destruct Hsym as [Hx|Hx]; [contradiction|subst sym].
        specialize (IH c g' black (white ++ [(size g' - 1 - row_num, c)])).
        destruct (walk_row row_num c rest g' black _) as [[[g2 b2] w2] c2].
        destruct IH as [-> ->]. rewrite Hs.
        cbn [Z.eqb Pos.eqb app map]. rewrite ?map_app, !map_map. cbv beta.
        rewrite !(map_col_stone _ _ _ _ _ E). cbn [map app].
        rewrite col_at_0, <- app_assoc. split; reflexivity.
    + specialize (IH (c + 1) g' black white).
      destruct (walk_row row_num (c + 1) rest g' black white) as [[[g2 b2] w2] c2].
      destruct IH as [-> ->]. rewrite Hs.
      assert (N64 : Z.eqb sym 64 = false)
        by (apply Z.eqb_neq; intros ->; discriminate E).
      assert (N33 : Z.eqb sym 33 = false)
        by (apply Z.eqb_neq; intros ->; discriminate E).
      rewrite N64, N33. cbn [app]. rewrite !map_map. cbv beta.
      rewrite !(map_col_plain _ _ _ _ _ E). split; reflexivity.
Qed.

Lemma firstn_S_nth (row : pystr) (k : nat) :
  (k < List.length row)%nat -> firstn (S k) row = firstn k row ++ [nth k row 0].
Proof.
  revert k. induction row as [|x r IH]; intros k Hk; cbn in Hk; [lia|].
  destruct k as [|k]; [reflexivity|].
  change (firstn (S (S k)) (x :: r)) with (x :: firstn (S k) r).
  change (firstn (S k) (x :: r)) with (x :: firstn k r).
  rewrite (IH k) by lia. reflexivity.
Qed.

Lemma final_col_prefix (row_num : Z) (row : pystr) (g : SimpleSGF)
    (black white : list (Z * Z)) (k : nat) :
  (k <= List.length row)%nat ->
  final_col row_num 0 (firstn k row) g black white = col_at 0 row k.
Proof.
  intros Hk. rewrite walk_row_col_count. unfold col_at.
  rewrite length_firstn, Nat.min_l by exact Hk. lia.
Qed.

Lemma positions_lt (sym : Z) (row : pystr) (k : nat) :
  In k (positions sym row) -> (k < List.length row)%nat.
Proof.
  unfold positions. intros H. apply filter_In in H as [H _].
  apply in_seq in H. lia.
Qed.

(** C2 (amended).  The inner loop of [tex2sgf] advances the column counter
    by one for every character except the stone glyphs ['@'] and ['!'],
    which record a stone at the current column without advancing:
    - a line of [n] characters with [k] stone glyphs moves the counter by
      [n - k]; a line of only non-stone characters moves it by its length;
    - reading character [k] moves the counter from its value before [k] by
      0 for a stone glyph and by 1 for any other character;
    - the stones appended for the line are, in the order of the line, one
      per ['@'] (black) and one per ['!'] (white), on the line's row
      [size - 1 - row_num] and at the column the counter has when that
      glyph is reached. *)
Theorem walk_row_column_accounting (row_num : Z) (row : pystr)
    (g : SimpleSGF) (black white : list (Z * Z)) :
  final_col row_num 0 row g black white =
    Z.of_nat (List.length row) - Z.of_nat (List.length (filter stone_glyph row)) /\
  (filter stone_glyph row = [] ->
   final_col row_num 0 row g black white = Z.of_nat (List.length row)) /\
  (forall k, (k < List.length row)%nat ->
   final_col row_num 0 (firstn (S k) row) g black white =
     final_col row_num 0 (firstn k row) g black white +
     (if stone_glyph (nth k row 0) then 0 else 1)) /\
  let '(_, black', white', _) := walk_row row_num 0 row g black white in
  black' = black ++ map (fun k => (size g - 1 - row_num,
                                   final_col row_num 0 (firstn k row) g black white))
                        (positions 64 row) /\
  white' = white ++ map (fun k => (size g - 1 - row_num,
                                   final_col row_num 0 (firstn k row) g black white))
                        (positions 33 row).
Proof.
  split; [rewrite walk_row_col_count; lia|].
  split; [intros H; rewrite walk_row_col_count, H; cbn; lia|].
  split.
  - intros k Hk. rewrite !walk_row_col_count, (firstn_S_nth row k Hk).
    rewrite filter_app, !length_app. cbn [filter].
    destruct (stone_glyph (nth k row 0)); cbn [List.length]; lia.
  - pose proof (walk_row_stones row_num row 0 g black white) as H.
    destruct (walk_row row_num 0 row g black white) as [[[g2 b2] w2] c2].
    destruct H as [-> ->].
    split; f_equal; apply map_ext_in; intros k Hk;
      rewrite final_col_prefix by (apply Nat.lt_le_incl; eapply positions_lt; exact Hk);
      reflexivity.
Qed.

Lemma walk_row_column_accounting_witness :
  filter stone_glyph (ustr "..A.") = [] /\
  final_col 18 0 (ustr "..A.") (new_sgf 19) [] [] = 4.
Proof.
  split; [reflexivity|].
  apply (proj1 (proj2 (walk_row_column_accounting 18 (ustr "..A.") (new_sgf 19) [] []))).
  reflexivity.
Defined.





Lemma set_of_incl {A} (eqb : A -> A -> bool) (xs seen : list A) (x : A) :
  In x (set_of eqb xs seen) -> In x xs.
Proof.
  revert seen. induction xs as [|y r IH]; intros seen; cbn; [tauto|].
  destruct (existsb (eqb y) seen); cbn.
  - intros H. right. eapply IH; eauto.
  - intros [H | H]; [left; assumption | right; eapply IH; eauto].
Qed.






(** ** [merge_sgfs] *)

(** A Unicode database's decimal digits ([unicodedata.decimal]): the digit
    value of a code point, [None] for a non-digit.  [re]'s [\d] on [str]
    matches exactly these code points and [int()] reads them. *)
Definition decimal_db := Z -> option Z.

Definition ascii_decimal (c : Z) : option Z :=
  if (48 <=? c) && (c <=? 57) then Some (c - 48) else None.

(** The first code points of the 68 runs [0..9] of decimal digits of
    Unicode 15.0 (Python 3.12). *)
Definition nd_zeros : list Z :=
  [48; 1632; 1776; 1984; 2406; 2534; 2662; 2790; 2918; 3046; 3174; 3302;
     3430; 3558; 3664; 3792; 3872; 4160; 4240; 6112; 6160; 6470; 6608;
     6784; 6800; 6992; 7088; 7232; 7248; 42528; 43216; 43264; 43472; 43504;
     43600; 44016; 65296; 66720; 68912; 69734; 69872; 69942; 70096; 70384;
     70736; 70864; 71248; 71360; 71472; 71904; 72016; 72784; 73040; 73120;
     73552; 92768; 92864; 93008; 120782; 120792; 120802; 120812; 120822;
     123200; 123632; 124144; 125264; 130032].

Definition unicode_decimal (c : Z) : option Z :=
  match find (fun z => (z <=? c) && (c <? z + 10)) nd_zeros with
  | Some z => Some (c - z)
  | None => None
  end.

(** [re.findall(r"\d+", s)]: the maximal runs of digits, as digit values;
    [cur] is the run being read. *)
Fixpoint digit_runs (dec : decimal_db) (s : pystr) (cur : option (list Z)) : list (list Z) :=
  match s with
  | [] => match cur with Some ds => [ds] | None => [] end
  | c :: r =>
      match dec c with
      | Some d => digit_runs dec r (Some (match cur with
                                          | Some ds => ds ++ [d]
                                          | None => [d]
                                          end))
      | None => match cur with
                | Some ds => ds :: digit_runs dec r None
                | None => digit_runs dec r None
                end
      end
  end.

(** [int(x)] on a run of digits: [ValueError] beyond 4300 digits. *)
Definition py_int_of_digits (ds : list Z) : result Z :=
  if int_max_str_digits <? Z.of_nat (List.length ds) then Err ValueError
  else Ok (fold_left (fun a d => a * 10 + d) ds 0).

Fixpoint map_result {A B} (f : A -> result B) (xs : list A) : result (list B) :=
  match xs with
  | [] => Ok []
  | x :: r => y <- f x;; ys <- map_result f r;; Ok (y :: ys)
  end.

(** [Path(name).stem] for a name matched by [glob("*.sgf")]: the suffix
    [".sgf"] is dropped unless the name is [".sgf"] itself. *)
Definition stem (name : pystr) : pystr :=
  let n := List.length name in
  if (4 <? n)%nat && str_eqb (skipn (n - 4) name) (ustr ".sgf")
  then firstn (n - 4) name else name.

(** The sort key [[int(x) for x in re.findall(r"\d+", str(p.stem))]]. *)
Definition sort_key (dec : decimal_db) (name : pystr) : result (list Z) :=
  map_result py_int_of_digits (digit_runs dec (stem name) None).

(** Python's [<] on lists of ints. *)
Fixpoint lex_lt (a b : list Z) : bool :=
  match a, b with
  | [], [] => false
  | [], _ :: _ => true
  | _ :: _, [] => false
  | x :: a', y :: b' => if x <? y then true else if y <? x then false else lex_lt a' b'
  end.

(** Insertion of a keyed name after every entry whose key is not greater. *)
Fixpoint insert_by_key (x : list Z * pystr) (l : list (list Z * pystr))
  : list (list Z * pystr) :=
  match l with
  | [] => [x]
  | y :: r => if lex_lt (fst x) (fst y) then x :: y :: r
              else y :: insert_by_key x r
  end.

(** [sorted(files, key=...)]: the keys are computed first, in order (the
    first failing one raises); the sort is stable, and [<] on the keys is
    a total order, so any stable sort gives this insertion sort's result. *)
Definition sorted_files (dec : decimal_db) (files : list pystr) : result (list pystr) :=
  keyed <- map_result (fun f => k <- sort_key dec f;; Ok (k, f)) files;;
  Ok (map snd (fold_left (fun acc kf => insert_by_key kf acc) keyed [])).

(** [game.split("\n")[1:-2]]. *)
Definition body_lines (l : list pystr) : list pystr :=
  firstn (List.length l - 3) (skipn 1 l).

(** [merge_sgfs]: [files] are the globbed names, [read f] is
    [open(f, "r").read()] (which may raise), [cmt] the comment; the result
    is the text written to [output_file]. *)
Definition merge_sgfs (dec : decimal_db) (files : list pystr) (cmt : pystr)
    (read : pystr -> result pystr) : result pystr :=
  let header := ustr "(;FF[4]GM[1]SZ[19]" ++ [10] ++ ustr "C[" ++ cmt ++ ustr "]" in
  sorted <- sorted_files dec files;;
  games <- map_result (fun f => t <- read f;;
                         Ok ([10] ++ ustr "(;" ++ List.concat (body_lines (split_nl t))
                             ++ ustr ")"))
                      sorted;;
  Ok (header ++ List.concat games ++ [10] ++ ustr ")").

(** Text-mode reading ([newline=None]): ["\r\n"] and ["\r"] become ["\n"]. *)
Fixpoint universal_newlines (s : pystr) : pystr :=
  match s with
  | [] => []
  | 13 :: 10 :: r => 10 :: universal_newlines r
  | 13 :: r => 10 :: universal_newlines r
  | c :: r => c :: universal_newlines r
  end.

Definition key_ord (a b : list Z) : Prop := lex_lt b a = false.

Lemma lex_lt_asym (a b : list Z) : lex_lt a b = true -> lex_lt b a = false.
Proof.
  revert b; induction a as [|x a IH]; intros [|y b]; cbn; try discriminate; auto.
  destruct (x <? y) eqn:E1; destruct (y <? x) eqn:E2; intros H; try discriminate.
  - apply Z.ltb_lt in E1; apply Z.ltb_lt in E2; lia.
  - reflexivity.
  - auto.
Qed.

Lemma insert_by_key_perm (x : list Z * pystr) (l : list (list Z * pystr)) :
  Permutation (insert_by_key x l) (x :: l).
Proof.
  induction l as [|y r IH]; cbn; [auto|].
  destruct (lex_lt _ _); [auto|].
  eapply perm_trans; [apply perm_skip, IH | apply perm_swap].
Qed.

Definition pair_ord (x y : list Z * pystr) : Prop := key_ord (fst x) (fst y).

Lemma insert_by_key_hd (z x : list Z * pystr) (l : list (list Z * pystr)) :
  HdRel pair_ord z l -> pair_ord z x -> HdRel pair_ord z (insert_by_key x l).
Proof.
  destruct l as [|y r]; cbn; intros H1 H2; [auto|].
  destruct (lex_lt _ _); constructor; auto. inversion H1; assumption.
Qed.

Lemma insert_by_key_sorted (x : list Z * pystr) (l : list (list Z * pystr)) :
  Sorted pair_ord l -> Sorted pair_ord (insert_by_key x l).
Proof.
  induction l as [|y r IH]; intros Hs; cbn; [auto|].
  inversion Hs as [|? ? Hr Hhd]; subst.
  destruct (lex_lt (fst x) (fst y)) eqn:E.
  - constructor; [exact Hs|]. constructor. unfold pair_ord, key_ord. now apply lex_lt_asym.
  - constructor; [auto|]. apply insert_by_key_hd; assumption.
Qed.

Lemma insertion_spec (keyed acc : list (list Z * pystr)) :
  Sorted pair_ord acc ->
  Permutation (fold_left (fun acc kf => insert_by_key kf acc) keyed acc) (acc ++ keyed) /\
  Sorted pair_ord (fold_left (fun acc kf => insert_by_key kf acc) keyed acc).
Proof.
  revert acc; induction keyed as [|f r IH]; intros acc Hs; cbn.
  - rewrite app_nil_r. auto.
  - destruct (IH (insert_by_key f acc)) as [Hp Hs']; [now apply insert_by_key_sorted|].
    split; [|exact Hs'].
    eapply perm_trans; [exact Hp|].
    eapply perm_trans; [apply Permutation_app_tail, insert_by_key_perm|].
    cbn. apply Permutation_middle.
Qed.

Lemma keyed_spec (dec : decimal_db) (files : list pystr) :
  (forall f, In f files -> exists k, sort_key dec f = Ok k) ->
  exists keyed, map_result (fun f => k <- sort_key dec f;; Ok (k, f)) files = Ok keyed /\
                map snd keyed = files /\
                Forall (fun kf => sort_key dec (snd kf) = Ok (fst kf)) keyed.
Proof.
  induction files as [|f r IH]; intros H; cbn; [exists []; auto|].
  destruct (H f (or_introl eq_refl)) as [k Hk]. rewrite Hk. cbn [bind].
  destruct IH as [keyed [E [Hm Hf]]]; [intros x Hx; apply H; right; exact Hx|].
  rewrite E. cbn [bind]. exists ((k, f) :: keyed).
  split; [reflexivity|]. split; [cbn; rewrite Hm; reflexivity|]. constructor; auto.
Qed.

Lemma sorted_keys (l : list (list Z * pystr)) :
  Sorted pair_ord l -> Sorted key_ord (map fst l).
Proof.
  induction 1 as [|x l Hs IH Hhd]; cbn; constructor; [exact IH|].
  destruct Hhd as [|y l' Hy]; cbn; constructor; exact Hy.
Qed.

Lemma map_result_map {A B} (f : A -> result B) (xs : list A) (ys : list B) :
  Forall2 (fun x y => f x = Ok y) xs ys -> map_result f xs = Ok ys.
Proof.
  induction 1 as [|x y xs ys Hxy _ IH]; cbn; [reflexivity|].
  rewrite Hxy. cbn [bind]. rewrite IH. reflexivity.
Qed.

Lemma digit_runs_ascii (dec : decimal_db)
    (Hascii : forall c, 0 <= c < 128 -> dec c = ascii_decimal c)
    (s : pystr) (cur : option (list Z)) :
  Forall (fun c => 0 <= c < 128) s -> digit_runs dec s cur = digit_runs ascii_decimal s cur.
Proof.
  revert cur. induction s as [|c r IH]; intros cur Hs; [reflexivity|].
  inversion Hs as [|? ? Hc Hr]; subst. cbn [digit_runs].
  rewrite (Hascii c Hc). destruct (ascii_decimal c); rewrite !IH by exact Hr; reflexivity.
Qed.

Lemma stem_ascii (name : pystr) :
  Forall (fun c => 0 <= c < 128) name -> Forall (fun c => 0 <= c < 128) (stem name).
Proof.
  intros H. unfold stem. destruct (_ && _); [|exact H].
  rewrite <- (firstn_skipn (List.length name - 4) name) in H.
  apply Forall_app in H. tauto.
Qed.

Lemma sort_key_ascii (dec : decimal_db)
    (Hascii : forall c, 0 <= c < 128 -> dec c = ascii_decimal c) (name : pystr) :
  Forall (fun c => 0 <= c < 128) name -> sort_key dec name = sort_key ascii_decimal name.
Proof.
  intros H. unfold sort_key. rewrite (digit_runs_ascii dec Hascii); [reflexivity|].
  now apply stem_ascii.
Qed.

Lemma ascii_check (s : pystr) :
  forallb (fun c => (0 <=? c) && (c <? 128)) s = true -> Forall (fun c => 0 <= c < 128) s.
Proof.
  intros H. apply Forall_forall. intros c Hc.
  eapply forallb_forall in H; [|exact Hc]. apply andb_true_iff in H as [H1 H2]. lia.
Qed.

(** C9.  For any Unicode database (all agree on ASCII), [merge_sgfs]
    visits the files in the order of a stable sort on the list of integers
    embedded in the stem, compared as Python compares lists: when every key
    can be computed, the visited list is a permutation of the input whose
    keys are in non-decreasing order; ["problem 2.sgf"], ["problem 10.sgf"],
    ["problem 1.sgf"] come out as 1, 2, 10. *)
Theorem merge_sgfs_numeric_order (dec : decimal_db)
    (Hascii : forall c, 0 <= c < 128 -> dec c = ascii_decimal c) :
  (forall files,
     (forall f, In f files -> exists k, sort_key dec f = Ok k) ->
     exists out ks,
       sorted_files dec files = Ok out /\ Permutation out files /\
       map (sort_key dec) out = map Ok ks /\ Sorted key_ord ks) /\
  map (sort_key dec) [ustr "problem 2.sgf"; ustr "problem 10.sgf"; ustr "problem 1.sgf"]
    = [Ok [2]; Ok [10]; Ok [1]] /\
  sorted_files dec [ustr "problem 2.sgf"; ustr "problem 10.sgf"; ustr "problem 1.sgf"]
    = Ok [ustr "problem 1.sgf"; ustr "problem 2.sgf"; ustr "problem 10.sgf"].
Proof.
  assert (K2 : sort_key dec (ustr "problem 2.sgf") = Ok [2])
    by (rewrite (sort_key_ascii dec Hascii) by (apply ascii_check; reflexivity);
        vm_compute; reflexivity).
  assert (K10 : sort_key dec (ustr "problem 10.sgf") = Ok [10])
    by (rewrite (sort_key_ascii dec Hascii) by (apply ascii_check; reflexivity);
        vm_compute; reflexivity).
  assert (K1 : sort_key dec (ustr "problem 1.sgf") = Ok [1])
    by (rewrite (sort_key_ascii dec Hascii) by (apply ascii_check; reflexivity);
        vm_compute; reflexivity).
  split; [|split].
  - intros files Hk.
    destruct (keyed_spec dec files Hk) as [keyed [E [Hm Hf]]].
    destruct (insertion_spec keyed [] (Sorted_nil _)) as [Hp Hs].
    set (srt := fold_left (fun acc kf => insert_by_key kf acc) keyed []) in *.
    exists (map snd srt), (map fst srt).
    unfold sorted_files. rewrite E. cbn [bind]. fold srt.
    split; [reflexivity|]. split.
    + rewrite <- Hm. exact (Permutation_map snd Hp).
    + split; [|now apply sorted_keys].
      rewrite !map_map. apply map_ext_in. intros kf Hin.
      apply (Permutation_in _ Hp) in Hin.
      exact (proj1 (Forall_forall _ _) Hf kf Hin).
  - cbn [map]. rewrite K2, K10, K1. reflexivity.
  - unfold sorted_files. cbn [map_result]. rewrite K2, K10, K1. reflexivity.
Qed.

Definition option_Z_eqb (a b : option Z) : bool :=
  match a, b with
  | Some x, Some y => Z.eqb x y
  | None, None => true
  | _, _ => false
  end.

Lemma unicode_decimal_ascii (c : Z) : 0 <= c < 128 -> unicode_decimal c = ascii_decimal c.
Proof.
  intros Hc.
  assert (H : forallb (fun n => option_Z_eqb (unicode_decimal (Z.of_nat n))
                                             (ascii_decimal (Z.of_nat n)))
                      (seq 0 128) = true) by (vm_compute; reflexivity).
  assert (Hin : In (Z.to_nat c) (seq 0 128)) by (apply in_seq; lia).
  pose proof (proj1 (forallb_forall _ _) H _ Hin) as H1. cbv beta in H1.
  rewrite Z2Nat.id in H1 by lia.
  destruct (unicode_decimal c), (ascii_decimal c); cbn in H1; try discriminate;
    [apply Z.eqb_eq in H1; subst; reflexivity | reflexivity].
Qed.

Lemma merge_sgfs_numeric_order_witness :
  sort_key unicode_decimal (ustr "p" ++ [1633; 1633] ++ ustr ".sgf") = Ok [11] /\
  sorted_files unicode_decimal
    [ustr "problem 2.sgf"; ustr "problem 10.sgf"; ustr "problem 1.sgf"]
    = Ok [ustr "problem 1.sgf"; ustr "problem 2.sgf"; ustr "problem 10.sgf"].
Proof.
  split; [vm_compute; reflexivity|].
  exact (proj2 (proj2 (merge_sgfs_numeric_order unicode_decimal unicode_decimal_ascii))).
Defined.

(** ** [extract_sgf] *)

(** The code points Python's [str.strip()] removes. *)
Definition is_space (c : Z) : bool :=
  existsb (Z.eqb c) [9; 10; 11; 12; 13; 28; 29; 30; 31; 32; 133; 160; 5760;
                     8192; 8193; 8194; 8195; 8196; 8197; 8198; 8199; 8200;
                     8201; 8202; 8232; 8233; 8239; 8287; 12288].

Fixpoint lstrip (s : pystr) : pystr :=
  match s with
  | c :: r => if is_space c then lstrip r else s
  | [] => []
  end.

Definition strip (s : pystr) : pystr := rev (lstrip (rev (lstrip s))).

(** [name.endwith(...)]: [str] has no attribute [endwith]. *)
Definition py_endwith (s suffix : pystr) : result bool := Err AttributeError.

(** One iteration of the loop of [extract_sgf], for problem index [i],
    title group [title] and board group [board].  [fmt] is
    [filename.format(problem_num=..., name=...)]; [render] is [None] when
    [render_output_dir] is [None], else the (fallible) call to [render_sgf].
    The result is the files opened for writing, with their content, and the
    exception raised, if any.  [open_wb] is [open(sgf_filename, "wb")], which
    may fail (missing directory, permissions); it creates the file before
    [game.serialize()] runs.  [str_hash] is the process's string hash, which
    fixes the iteration order of [marks] in [serialize]. *)
Definition extract_one (str_hash : pystr -> Z) (open_wb : pystr -> result unit)
    (render : option (SimpleSGF -> pystr -> result unit))
    (fmt : Z -> pystr -> pystr) (normalize : bool) (i : Z) (title board : pystr)
    : list (pystr * list Z) * option exn :=
  let name := strip title in
  let game := tex2sgf board in
  let r :=
    if contains (ustr "white to play") name then
      game1 <- set_player game (ustr "W");;
      if normalize then
        let name1 := py_replace (py_replace (py_replace name (ustr "black") (ustr "!!temp"))
                                            (ustr "white") (ustr "black"))
                                (ustr "!!temp") (ustr "white") in
        (* [name.replace(", black to play", "")] discards its result *)
        _ <- py_endwith name1 (ustr "black to play");;
        Ok (name1, flip_colors game1)
      else Ok (name, game1)
    else Ok (name, game) in
  match r with
  | Err e => ([], Some e)
  | Ok (name', game') =>
      let game'' := set_comment game' name' in
      let sgf_filename := fmt (i + 1) name' ++ ustr ".sgf" in
      match open_wb sgf_filename with
      | Err e => ([], Some e)
      | Ok _ =>
          match serialize str_hash game'' with
          | Err e => ([(sgf_filename, [])], Some e)
          | Ok data =>
              match render with
              | None => ([(sgf_filename, data)], None)
              | Some rnd =>
                  match rnd game'' (fmt (i + 1) name' ++ ustr ".svg") with
                  | Ok _ => ([(sgf_filename, data)], None)
                  | Err e => ([(sgf_filename, data)], Some e)
                  end
              end
          end
      end
  end.

Fixpoint extract_loop (str_hash : pystr -> Z) (open_wb : pystr -> result unit)
    (render : option (SimpleSGF -> pystr -> result unit))
    (fmt : Z -> pystr -> pystr) (normalize : bool) (i : Z)
    (problems : list (pystr * pystr)) : list (pystr * list Z) * option exn :=
  match problems with
  | [] => ([], None)
  | (title, board) :: rest =>
      let '(w, e) := extract_one str_hash open_wb render fmt normalize i title board in
      match e with
      | Some _ => (w, e)
      | None => let '(w', e') := extract_loop str_hash open_wb render fmt normalize (i + 1) rest in
                (w ++ w', e')
      end
  end.

(** [extract_sgf] from the pairing [zip(all_matches, all_names)] on: each
    problem is its title group and its board group. *)
Definition extract_sgf (str_hash : pystr -> Z) (open_wb : pystr -> result unit)
    (render : option (SimpleSGF -> pystr -> result unit))
    (fmt : Z -> pystr -> pystr) (normalize : bool)
    (problems : list (pystr * pystr)) : list (pystr * list Z) * option exn :=
  extract_loop str_hash open_wb render fmt normalize 0 problems.

Lemma extract_one_white_normalize str_hash open_wb render fmt i title board :
  contains (ustr "white to play") (strip title) = true ->
  extract_one str_hash open_wb render fmt true i title board = ([], Some AttributeError).
Proof.
  intros H. unfold extract_one. rewrite H. reflexivity.
Qed.

Lemma extract_one_at_most_one str_hash open_wb render fmt normalize i title board :
  (List.length (fst (extract_one str_hash open_wb render fmt normalize i title board)) <= 1)%nat.
Proof.
  unfold extract_one.
  destruct (if contains _ _ then _ else _) as [[n g]|e]; cbn; [|lia].
  destruct (open_wb _); cbn; [|lia].
  destruct (serialize _ _); cbn; [|lia].
  destruct render as [rnd|]; cbn; [destruct (rnd _ _)|]; cbn; lia.
Qed.

Lemma extract_loop_stops str_hash open_wb render fmt (ps : list (pystr * pystr)) :
  forall (i : nat) (j : Z) title board,
  nth_error ps i = Some (title, board) ->
  contains (ustr "white to play") (strip title) = true ->
  let '(w, e) := extract_loop str_hash open_wb render fmt true j ps in
  e <> None /\ (List.length w <= i)%nat.
Proof.
  induction ps as [|[t b] rest IH]; intros i j title board Hi Hc;
    [destruct i; discriminate|].
  cbn [extract_loop].
  destruct i as [|i].
  - cbn in Hi. injection Hi as -> ->.
    rewrite extract_one_white_normalize by exact Hc. cbn. split; [discriminate | lia].
  - cbn in Hi.
    pose proof (extract_one_at_most_one str_hash open_wb render fmt true j t b) as H1.
    destruct (extract_one str_hash open_wb render fmt true j t b) as [w e]. cbn in H1.
    destruct e as [x|].
    + split; [discriminate | lia].
    + pose proof (IH i (j + 1) title board Hi Hc) as H2.
      destruct (extract_loop str_hash open_wb render fmt true (j + 1) rest) as [w' e'].
      destruct H2 as [He' Hl]. split; [exact He'|].
      rewrite length_app. lia.
Qed.

(** C10.  With [normalize=True], if the title of problem [i] (0-based)
    contains ["white to play"], the run raises: that problem's iteration
    raises [AttributeError] (from [name.endwith]) before any file is opened,
    and at most [i] files are written in the whole run, so none for that
    problem or a later one; [flip_colors] is never reached there. *)
Theorem extract_sgf_normalize_white_raises
    (str_hash : pystr -> Z) (open_wb : pystr -> result unit)
    (render : option (SimpleSGF -> pystr -> result unit))
    (fmt : Z -> pystr -> pystr) (ps : list (pystr * pystr)) (i : nat)
    (title board : pystr)
    (Hi : nth_error ps i = Some (title, board))
    (Hc : contains (ustr "white to play") (strip title) = true) :
  extract_one str_hash open_wb render fmt true (Z.of_nat i) title board = ([], Some AttributeError) /\
  let '(w, e) := extract_sgf str_hash open_wb render fmt true ps in
  e <> None /\ (List.length w <= i)%nat.
Proof.
  split; [now apply extract_one_white_normalize|].
  apply (extract_loop_stops str_hash open_wb render fmt ps i 0 title board Hi Hc).
Qed.

Definition sample_fmt (n : Z) (name : pystr) : pystr :=
  name ++ ustr " - (problem " ++ dec_string n ++ ustr ")".

(** A string hash and an [open] that succeeds, for the concrete runs. *)
Definition sample_hash (_ : pystr) : Z := 0.

Definition sample_open (_ : pystr) : result unit := Ok tt.

Definition sample_problems : list (pystr * pystr) :=
  [(ustr " 1. black to play ", ustr "@."); (ustr " 2. white to play", ustr "!.")].

Lemma extract_sgf_normalize_white_raises_witness :
  nth_error sample_problems 1 = Some (ustr " 2. white to play", ustr "!.") /\
  fst (extract_sgf sample_hash sample_open None sample_fmt true sample_problems) <> [] /\
  (extract_one sample_hash sample_open None sample_fmt true 1 (ustr " 2. white to play") (ustr "!.")
     = ([], Some AttributeError) /\
   let '(w, e) := extract_sgf sample_hash sample_open None sample_fmt true sample_problems in
   e <> None /\ (List.length w <= 1)%nat).
Proof.
  split; [reflexivity|]. split; [vm_compute; discriminate|].
  apply (extract_sgf_normalize_white_raises sample_hash sample_open None sample_fmt sample_problems 1
           (ustr " 2. white to play") (ustr "!.")); vm_compute; reflexivity.
Defined.

(** ** What [tex2sgf] produces on any input *)

Definition coord_weak (p : Z * Z) : Prop := fst p <= 18 /\ 0 <= snd p.

Definition label_text_ok (l : pystr) : Prop :=
  l = ustr "A" \/ l = ustr "-" \/ l = ustr "Z".

Definition mark_weak (m : pystr * Z * Z) : Prop :=
  let '(l, r, c) := m in label_text_ok l /\ coord_weak (r, c).

Definition board_weak (g : SimpleSGF) : Prop :=
  size g = 19 /\ Forall mark_weak (marks g) /\ comment g = None /\
  player g = ustr "B".

Lemma label_glyph (sym : Z) :
  contains [sym] (ustr "A-Z") = true -> label_text_ok [sym].
Proof.
  intros H. cbn in H. unfold label_text_ok.
  destruct (Z.eqb_spec sym 65); [subst; auto|].
  destruct (Z.eqb_spec sym 45); [subst; auto|].
  destruct (Z.eqb_spec sym 90); [subst; auto|].
  repeat match type of H with
         | context [Z.eqb sym ?k] => replace (Z.eqb sym k) with false in H
             by (symmetry; apply Z.eqb_neq; assumption)
         end.
  discriminate.
Qed.

Lemma walk_row_weak (row_num : Z) (row : pystr) :
  forall col_num g black white,
  0 <= row_num -> 0 <= col_num ->
  board_weak g -> Forall coord_weak black -> Forall coord_weak white ->
  let '(g', black', white', _) := walk_row row_num col_num row g black white in
  board_weak g' /\ Forall coord_weak black' /\ Forall coord_weak white'.
Proof.
  induction row as [|sym rest IH]; intros col_num g black white Hr Hc Hg Hb Hw.
  - cbn. auto.
  - assert (Hin : coord_weak (size g - 1 - row_num, col_num))
      by (destruct Hg as [Hs _]; unfold coord_weak; cbn; lia).
    set (g' := if contains [sym] (ustr "A-Z")
               then add_label g [sym] (size g - 1 - row_num) col_num else g).
    assert (Hg' : board_weak g' /\ size g' = size g).
    { unfold g'. destruct (contains [sym] (ustr "A-Z")) eqn:E; [|auto].
      destruct Hg as (Hs & Hm & Hcm & Hp). unfold add_label; cbn.
      repeat split; auto.
      destruct (existsb _ _); [exact Hm|].
      apply Forall_app; split; [exact Hm|].
      constructor; [|constructor]. cbn - [coord_weak].
      split; [now apply label_glyph | exact Hin]. }
    destruct Hg' as [Hg' Hsz].
    cbn [walk_row]. fold g'.
    destruct (contains [sym] (ustr "@!")); [destruct (Z.eqb sym 64)|].
    + apply IH; try assumption.
      apply Forall_app; split; [assumption|]. rewrite Hsz. auto.
    + apply IH; try assumption.
      apply Forall_app; split; [assumption|]. rewrite Hsz. auto.
    + apply IH; try assumption; lia.
Qed.

Lemma walk_lines_weak (lines : list pystr) :
  forall row_num g black white,
  0 <= row_num ->
  board_weak g -> Forall coord_weak black -> Forall coord_weak white ->
  let '(g', black', white') := walk_lines row_num lines g black white in
  board_weak g' /\ Forall coord_weak black' /\ Forall coord_weak white'.
Proof.
  induction lines as [|row rest IH]; intros row_num g black white Hr Hg Hb Hw.
  - cbn. auto.
  - cbn [walk_lines].
    pose proof (walk_row_weak row_num row 0 g black white) as H.
    destruct (walk_row row_num 0 row g black white) as [[[g' b'] w'] c'].
    destruct H as [Hg' [Hb' Hw']]; try assumption; try lia.
    apply IH; try assumption; lia.
Qed.

Lemma tex2sgf_weak (tex : pystr) :
  let g := tex2sgf tex in
  size g = 19 /\ player g = ustr "B" /\ comment g = None /\
  Forall coord_weak (setup_black g) /\ Forall coord_weak (setup_white g) /\
  Forall mark_weak (marks g).
Proof.
  unfold tex2sgf.
  pose proof (walk_lines_weak (lines_of tex) 0 (new_sgf 19) [] []) as H.
  destruct (walk_lines 0 (lines_of tex) (new_sgf 19) [] []) as [[g b] w].
  destruct H as [(Hs & Hm & Hc & Hp) [Hb Hw]];
    [lia | repeat split; constructor | constructor | constructor |].
  cbn - [coord_weak mark_weak].
  refine (conj Hs (conj Hp (conj Hc (conj _ (conj _ Hm)))));
    apply Forall_forall; intros p Hx; apply set_of_incl in Hx;
    [revert p Hx | revert p Hx]; apply Forall_forall; assumption.
Qed.

(** Whatever the input text, [tex2sgf] returns a 19x19 board with Black to
    play and no comment, whose stones and labels all have [row <= 18] and
    [col >= 0], and whose label texts are only ["A"], ["-"] or ["Z"]. *)
Theorem tex2sgf_shape (tex : pystr) :
  let g := tex2sgf tex in
  size g = 19 /\ player g = ustr "B" /\ comment g = None /\
  Forall coord_weak (setup_black g) /\ Forall coord_weak (setup_white g) /\
  Forall mark_weak (marks g).
Proof. exact (tex2sgf_weak tex). Qed.

(** ** Escape removal in [tex2sgf] *)

Definition no_backslash (s : pystr) : bool := forallb (fun c => negb (Z.eqb c 92)) s.

Lemma replace_no_backslash_app (old new s t : pystr) (o : list Z) :
  old = 92 :: o -> no_backslash s = true ->
  replace_from old new O (s ++ t) = s ++ replace_from old new O t.
Proof.
  intros ->. induction s as [|c s IH]; cbn [app no_backslash forallb]; [reflexivity|].
  intros H. apply andb_true_iff in H as [Hc Hs].
  cbn [replace_from is_prefix].
  replace (Z.eqb 92 c) with false
    by (apply negb_true_iff in Hc; rewrite Z.eqb_sym; symmetry; exact Hc).
  cbn [andb]. rewrite IH by exact Hs. reflexivity.
Qed.

Lemma replace_no_backslash (old new s : pystr) (o : list Z) :
  old = 92 :: o -> no_backslash s = true -> replace_from old new O s = s.
Proof.
  intros Ho Hs. rewrite <- (app_nil_r s) at 1.
  rewrite (replace_no_backslash_app old new s [] o Ho Hs).
  rewrite app_nil_r. reflexivity.
Qed.

Lemma no_backslash_app (s t : pystr) :
  no_backslash (s ++ t) = no_backslash s && no_backslash t.
Proof. unfold no_backslash. apply forallb_app. Qed.

Lemma is_prefix_app (o t : pystr) : is_prefix o (o ++ t) = true.
Proof. induction o as [|a o IH]; cbn; [reflexivity|]. rewrite Z.eqb_refl, IH. reflexivity. Qed.

Lemma replace_skip (old new o t : pystr) :
  replace_from old new (List.length o) (o ++ t) = replace_from old new O t.
Proof. induction o as [|a o IH]; cbn; [reflexivity|]. exact IH. Qed.

(** An occurrence of [old] at the front is replaced. *)
Lemma replace_hit (a : Z) (o new t : pystr) :
  replace_from (a :: o) new O ((a :: o) ++ t) = new ++ replace_from (a :: o) new O t.
Proof.
  cbn [app replace_from].
  replace (is_prefix (a :: o) (a :: o ++ t)) with true
    by (symmetry; exact (is_prefix_app (a :: o) t)).
  cbn [Nat.pred List.length]. rewrite replace_skip. reflexivity.
Qed.

Lemma replace_step (old new : pystr) (c : Z) (r : pystr) :
  replace_from old new O (c :: r) =
  if is_prefix old (c :: r)
  then new ++ replace_from old new (Nat.pred (List.length old)) r
  else c :: replace_from old new O r.
Proof. reflexivity. Qed.

(** A different backslash sequence at the front is kept. *)
Lemma replace_miss (a b : Z) (o e new t : pystr) :
  a <> b -> no_backslash (b :: e) = true ->
  replace_from (92 :: a :: o) new O ((92 :: b :: e) ++ t) =
  (92 :: b :: e) ++ replace_from (92 :: a :: o) new O t.
Proof.
  intros Hab He.
  change ((92 :: b :: e) ++ t) with (92 :: ((b :: e) ++ t)).
  rewrite replace_step.
  replace (is_prefix (92 :: a :: o) (92 :: (b :: e) ++ t)) with false
    by (cbn [app is_prefix]; rewrite Z.eqb_refl;
        replace (Z.eqb a b) with false by (symmetry; apply Z.eqb_neq; exact Hab);
        reflexivity).
  rewrite (replace_no_backslash_app (92 :: a :: o) new (b :: e) t (a :: o) eq_refl He).
  reflexivity.
Qed.

Lemma lines_of_no_backslash (s : pystr) :
  no_backslash s = true -> lines_of s = split_nl s.
Proof.
  intros Hs. unfold lines_of, py_replace.
  change (ustr "\0??") with [92; 48; 63; 63].
  change (ustr "\- ") with [92; 45; 32].
  change (ustr "\!  ") with [92; 33; 32; 32].
  rewrite !(replace_no_backslash _ _ s _ eq_refl Hs). reflexivity.
Qed.

Lemma lines_of_escape (s1 s2 esc : pystr)
    (Hesc : In esc [ustr "\0??"; ustr "\- "; ustr "\!  "])
    (Hs1 : no_backslash s1 = true) (Hs2 : no_backslash s2 = true) :
  lines_of (s1 ++ esc ++ s2) = lines_of (s1 ++ s2).
Proof.
  assert (H12 : no_backslash (s1 ++ s2) = true)
    by (rewrite no_backslash_app, Hs1, Hs2; reflexivity).
  rewrite (lines_of_no_backslash _ H12).
  unfold lines_of, py_replace.
  destruct Hesc as [<- | [<- | [<- | []]]];
    change (ustr "\0??") with [92; 48; 63; 63];
    change (ustr "\- ") with [92; 45; 32];
    change (ustr "\!  ") with [92; 33; 32; 32].
  - rewrite (replace_no_backslash_app _ _ s1 _ _ eq_refl Hs1), replace_hit, app_nil_l,
      (replace_no_backslash _ _ s2 _ eq_refl Hs2).
    rewrite ?(replace_no_backslash _ _ (s1 ++ s2) _ eq_refl H12); reflexivity.
  - rewrite (replace_no_backslash_app _ _ s1 _ _ eq_refl Hs1),
      replace_miss by (reflexivity || discriminate).
    rewrite (replace_no_backslash _ _ s2 _ eq_refl Hs2).
    rewrite (replace_no_backslash_app _ _ s1 _ _ eq_refl Hs1), replace_hit, app_nil_l,
      (replace_no_backslash _ _ s2 _ eq_refl Hs2).
    rewrite ?(replace_no_backslash _ _ (s1 ++ s2) _ eq_refl H12); reflexivity.
  - rewrite (replace_no_backslash_app _ _ s1 _ _ eq_refl Hs1),
      replace_miss by (reflexivity || discriminate).
    rewrite (replace_no_backslash _ _ s2 _ eq_refl Hs2).
    rewrite (replace_no_backslash_app _ _ s1 _ _ eq_refl Hs1),
      replace_miss by (reflexivity || discriminate).
    rewrite (replace_no_backslash _ _ s2 _ eq_refl Hs2).
    rewrite (replace_no_backslash_app _ _ s1 _ _ eq_refl Hs1), replace_hit, app_nil_l,
      (replace_no_backslash _ _ s2 _ eq_refl Hs2).
    rewrite ?(replace_no_backslash _ _ (s1 ++ s2) _ eq_refl H12); reflexivity.
Qed.

(** The three escape sequences [\0??], [\- ] and [\!  ] vanish before the
    diagram is walked: put between two backslash-free texts, each leaves
    the parsed board as if it were absent, so it records no stone (not even
    for the [!] of [\!  ]) and takes no column. *)
Theorem tex2sgf_escape_removed (s1 s2 esc : pystr)
    (Hesc : In esc [ustr "\0??"; ustr "\- "; ustr "\!  "])
    (Hs1 : no_backslash s1 = true) (Hs2 : no_backslash s2 = true) :
  tex2sgf (s1 ++ esc ++ s2) = tex2sgf (s1 ++ s2).
Proof.
  unfold tex2sgf. rewrite (lines_of_escape s1 s2 esc Hesc Hs1 Hs2). reflexivity.
Qed.

Lemma tex2sgf_escape_removed_witness :
  no_backslash (ustr ".@") = true /\ no_backslash (ustr "!.") = true /\
  tex2sgf (ustr ".@" ++ ustr "\!  " ++ ustr "!.") = tex2sgf (ustr ".@" ++ ustr "!.").
Proof.
  split; [reflexivity|]. split; [reflexivity|].
  apply tex2sgf_escape_removed; [cbn; auto | reflexivity | reflexivity].
Defined.

(** ** The iteration of a set yields elements that were added *)

Section SetIter.
Context {A : Type} (eqb : A -> A -> bool) (hash : A -> Z) (S : A -> Prop).

Definition slot_ok (o : option (A * Z)) : Prop :=
  match o with Some (x, _) => S x | None => True end.

Lemma Forall_firstn_gen {B} (Q : B -> Prop) (n : nat) (l : list B) :
  Forall Q l -> Forall Q (firstn n l).
Proof.
  revert l; induction n as [|n IH]; intros [|x l] H; cbn; auto.
  inversion H; subst. constructor; auto.
Qed.

Lemma Forall_skipn_gen {B} (Q : B -> Prop) (n : nat) (l : list B) :
  Forall Q l -> Forall Q (skipn n l).
Proof.
  revert l; induction n as [|n IH]; intros [|x l] H; cbn; auto.
  inversion H; subst. auto.
Qed.

Lemma put_ok (tbl : table A) (j : Z) (x : A) (h : Z) :
  Forall slot_ok tbl -> S x -> Forall slot_ok (put tbl j (x, h)).
Proof.
  intros Ht Hx. unfold put. apply Forall_app. split; [now apply Forall_firstn_gen|].
  constructor; [exact Hx | now apply Forall_skipn_gen].
Qed.

Lemma insert_clean_ok (tbl : table A) (o : option (A * Z)) :
  Forall slot_ok tbl -> slot_ok o -> Forall slot_ok (insert_clean eqb tbl o).
Proof.
  intros Ht Ho. destruct o as [[x h]|]; cbn; [|exact Ht].
  destruct (slot_search eqb tbl x h) as [[j b]|]; [now apply put_ok | exact Ht].
Qed.

Lemma table_resize_ok (tbl : table A) (minused : Z) :
  Forall slot_ok tbl -> Forall slot_ok (table_resize eqb tbl minused).
Proof.
  intros Ht. unfold table_resize.
  assert (H0 : Forall slot_ok (repeat None (Z.to_nat (new_size 64 8 minused)))).
  { apply Forall_forall. intros o Ho. apply repeat_spec in Ho. subst. exact I. }
  revert H0. generalize (repeat (@None (A * Z)) (Z.to_nat (new_size 64 8 minused))).
  induction tbl as [|o r IH]; intros acc Hacc; cbn; [exact Hacc|].
  inversion Ht; subst. apply IH; [assumption|]. now apply insert_clean_ok.
Qed.

Lemma set_add_ok (tbl : table A) (x : A) :
  Forall slot_ok tbl -> S x -> Forall slot_ok (set_add eqb hash tbl x).
Proof.
  intros Ht Hx. unfold set_add.
  destruct (slot_search eqb tbl x (hash x)) as [[j [|]]|]; [exact Ht| |exact Ht].
  destruct (_ <? _); [now apply put_ok|]. apply table_resize_ok. now apply put_ok.
Qed.

Lemma py_set_iter_Forall (xs : list A) :
  Forall S xs -> Forall S (py_set_iter eqb hash xs).
Proof.
  intros Hxs. unfold py_set_iter.
  assert (H0 : Forall slot_ok (repeat None 8)) by (repeat constructor).
  revert H0. generalize (repeat (@None (A * Z)) 8).
  induction xs as [|x r IH]; intros acc Hacc; cbn [fold_left].
  - induction Hacc as [|o l Ho _ IHl]; cbn; [constructor|].
    destruct o as [[y h]|]; cbn; [constructor; assumption | exact IHl].
  - inversion Hxs; subst. apply IH; [assumption|]. now apply set_add_ok.
Qed.
End SetIter.

Lemma py_set_iter_incl {A} (eqb : A -> A -> bool) (hash : A -> Z) (xs : list A) (x : A) :
  In x (py_set_iter eqb hash xs) -> In x xs.
Proof.
  intros H. apply (proj1 (Forall_forall _ _) (py_set_iter_Forall eqb hash (fun y => In y xs) xs
                    (proj2 (Forall_forall _ _) (fun y Hy => Hy))) x H).
Qed.

(** ** Shape of [serialize]'s output *)

Definition coord_in (g : SimpleSGF) (p : Z * Z) : Prop :=
  0 <= fst p < size g /\ 0 <= snd p < size g.

Definition mark_in (g : SimpleSGF) (m : pystr * Z * Z) : Prop :=
  let '(_, r, c) := m in coord_in g (r, c).

(** The first line of the text, after the opening parenthesis. *)
Definition sgf_head (g : SimpleSGF) : pystr :=
  ustr ";FF[4]GM[1]" ++ ustr "SZ[" ++ dec_string (size g) ++ ustr "]".

Lemma digits_of_nat_range (fuel : nat) (n : Z) (acc : pystr) :
  Forall (fun c => 45 <= c < 58) acc ->
  Forall (fun c => 45 <= c < 58) (digits_of_nat fuel n acc).
Proof.
  revert n acc. induction fuel as [|f IH]; intros n acc H; cbn; [exact H|].
  assert (Hd : 45 <= 48 + n mod 10 < 58)
    by (pose proof (Z.mod_pos_bound n 10 ltac:(lia)); lia).
  destruct (n <? 10); [constructor; assumption|].
  apply IH. constructor; assumption.
Qed.

Lemma dec_string_range (n : Z) : Forall (fun c => 45 <= c < 58) (dec_string n).
Proof.
  unfold dec_string. destruct (n <? 0).
  - constructor; [lia|]. apply digits_of_nat_range. constructor.
  - apply digits_of_nat_range. constructor.
Qed.

Lemma z_to_dec_small (n : Z) : 0 <= n < 10 ^ 7 -> z_to_dec n = Ok (dec_string n).
Proof.
  intros Hn. unfold z_to_dec.
  assert (H7 : 10 ^ 7 <= 10 ^ int_max_str_digits)
    by (apply Z.pow_le_mono_r; unfold int_max_str_digits; lia).
  replace (10 ^ int_max_str_digits <=? Z.abs n) with false; [reflexivity|].
  symmetry. apply Z.leb_gt. rewrite Z.abs_eq by lia. lia.
Qed.

Section Framing.
(** [P]: a property of code points that every printable ASCII character
    has (being encodable, not being a newline, ...). *)
Variable P : Z -> Prop.
Hypothesis HP_ascii : forall c, 32 <= c < 127 -> P c.

Ltac ascii_P := vm_compute; repeat constructor; apply HP_ascii; lia.

Lemma head_P (g : SimpleSGF) : Forall P (sgf_head g).
Proof.
  unfold sgf_head. repeat (apply Forall_app; split); try ascii_P.
  eapply Forall_impl; [|apply dec_string_range]. intros c Hc; cbv beta in Hc; apply HP_ascii; lia.
Qed.

Lemma join_map_P {A} (f : A -> result pystr) (xs : list A) :
  Forall (fun x => exists s, f x = Ok s /\ Forall P s) xs ->
  exists s, join_map f xs = Ok s /\ Forall P s.
Proof.
  induction xs as [|x r IH]; intros H; cbn; [exists []; auto|].
  inversion H as [|? ? [s [Hs HPs]] Hr]; subst.
  destruct (IH Hr) as [t [Ht HPt]].
  rewrite Hs; cbn. rewrite Ht; cbn. exists (s ++ t). split; [reflexivity|].
  apply Forall_app; auto.
Qed.

Lemma coord2letter_P (g : SimpleSGF) (row col : Z) :
  coord_in g (row, col) -> size g + 96 < 1114112 ->
  (forall c, 97 <= c <= size g + 96 -> P c) ->
  exists s, coord2letter g row col = Ok s /\ Forall P s.
Proof.
  intros [Hr Hc] Hsz HL. cbn in Hr, Hc. unfold coord2letter, chr.
  replace ((0 <=? col + 97) && (col + 97 <? 1114112)) with true
    by (symmetry; apply andb_true_iff; split; [apply Z.leb_le | apply Z.ltb_lt]; lia).
  replace ((0 <=? size g - row - 1 + 97) && (size g - row - 1 + 97 <? 1114112))
    with true
    by (symmetry; apply andb_true_iff; split; [apply Z.leb_le | apply Z.ltb_lt]; lia).
  cbn. eexists; split; [reflexivity|].
  constructor; [apply HL; lia|]. constructor; [apply HL; lia | constructor].
Qed.

Definition framed (g : SimpleSGF) (buf : pystr) : Prop :=
  exists ls, buf = sgf_head g ++ List.concat (map (cons 10) ls) /\
             Forall (Forall P) ls.

Lemma framed_add (g : SimpleSGF) (buf l : pystr) :
  framed g buf -> Forall P l -> framed g (buf ++ 10 :: l).
Proof.
  intros [ls [-> Hls]] Hl. exists (ls ++ [l]). split.
  - rewrite map_app, concat_app. cbn. rewrite app_nil_r, <- app_assoc. reflexivity.
  - apply Forall_app; auto.
Qed.
End Framing.

Section SerializeShape.
Variable P : Z -> Prop.
Hypothesis HP_ascii : forall c, 32 <= c < 127 -> P c.

Lemma ustr_P (s : string) :
  forallb (fun c => (32 <=? c) && (c <? 127)) (ustr s) = true -> Forall P (ustr s).
Proof.
  intros H. apply Forall_forall. intros c Hc.
  eapply forallb_forall in H; [|exact Hc].
  apply andb_true_iff in H as [H1 H2]. apply HP_ascii. lia.
Qed.

(** The text [serialize] builds from the property lines [ls]. *)
Definition sgf_text (g : SimpleSGF) (ls : list pystr) : pystr :=
  ustr "(" ++ sgf_head g ++ List.concat (map (cons 10) ls) ++
  [10] ++ ustr "CA[UTF-8])" ++ [10].

Definition shaped (g : SimpleSGF) (r : result pystr) : Prop :=
  exists ls, r = Ok (sgf_text g ls) /\ Forall (Forall P) ls.

Lemma stage_list {A} (g : SimpleSGF) (b : pystr) (xs ys : list A)
    (f : A -> result pystr) (tagnl tag : pystr) (k : pystr -> result pystr) :
  tagnl = 10 :: tag -> Forall P tag -> framed P g b ->
  Forall (fun x => exists s, f x = Ok s /\ Forall P s) ys ->
  (forall b', framed P g b' -> shaped g (k b')) ->
  shaped g (bind (match xs with
                  | [] => Ok b
                  | _ :: _ => bind (join_map f ys) (fun j => Ok (b ++ tagnl ++ j))
                  end) k).
Proof.
  intros -> Htag Fb Hys Hk. destruct xs as [|x r]; cbn [bind]; [now apply Hk|].
  destruct (join_map_P P f ys Hys) as [j [Hj HPj]]. rewrite Hj. cbn [bind].
  apply Hk. apply framed_add; [exact Fb|]. apply Forall_app; auto.
Qed.

Lemma stage_end (g : SimpleSGF) (b : pystr) :
  framed P g b ->
  shaped g (Ok (ustr "(" ++ (b ++ ustr "
CA[UTF-8]") ++ ustr ")
")).
Proof.
  intros [ls [-> Hls]]. exists ls. split; [|exact Hls].
  unfold sgf_text. rewrite <- !app_assoc. reflexivity.
Qed.

Lemma Forall_app3 (a b c : pystr) :
  Forall P a -> Forall P b -> Forall P c -> Forall P (a ++ b ++ c).
Proof. intros; repeat (apply Forall_app; split); assumption. Qed.

(** Under the hypotheses below [serialize] builds its text as: an opening
    parenthesis, the header [;FF[4]GM[1]SZ[n]], the optional property
    lines, each after a newline, then [\nCA[UTF-8])\n]; every optional
    line is made of characters satisfying [P]. *)
Lemma serialize_text_shape (str_hash : pystr -> Z) (g : SimpleSGF) :
  Forall (coord_in g) (setup_black g) -> Forall (coord_in g) (setup_white g) ->
  Forall (mark_in g) (marks g) -> 0 <= size g ->
  size g + 96 < 1114112 -> (forall c, 97 <= c <= size g + 96 -> P c) ->
  (forall c, comment g = Some c -> Forall P c) -> Forall P (player g) ->
  Forall (fun m => Forall P (fst (fst m))) (marks g) ->
  shaped g (serialize_text str_hash g).
Proof.
  intros Hb Hw Hm Hsz0 Hsz HL Hc Hp Hml.
  assert (F0 : framed P g (sgf_head g)) by (exists []; rewrite app_nil_r; auto).
  unfold serialize_text. rewrite z_to_dec_small by lia. cbn [bind]. cbv zeta.
  fold (sgf_head g).
  match goal with
  | |- context [match player g with [] => ?b | _ :: _ => _ end] =>
      assert (F1 : framed P g b); [|set (buf1 := b) in *; clearbody buf1]
  end.
  { destruct (comment g) as [[|x l]|] eqn:Ec; try exact F0.
    apply (framed_add P g _ (ustr "C[" ++ (x :: l) ++ ustr "]") F0).
    apply Forall_app3; [apply ustr_P; reflexivity | now apply Hc | apply ustr_P; reflexivity]. }
  match goal with
  | |- context [match setup_black g with [] => Ok ?b | _ :: _ => _ end] =>
      assert (F2 : framed P g b); [|set (buf2 := b) in *; clearbody buf2]
  end.
  { destruct (player g) as [|x l] eqn:Ep; [exact F1|].
    apply (framed_add P g _ (ustr "PL[" ++ (x :: l) ++ ustr "]") F1).
    apply Forall_app3; [apply ustr_P; reflexivity | exact Hp | apply ustr_P; reflexivity]. }
  assert (Hcoord : forall xs, Forall (coord_in g) xs ->
            Forall (fun x => exists s,
                      (s0 <- coord2letter g (fst x) (snd x);; Ok (bracket s0)) = Ok s /\
                      Forall P s) xs).
  { intros xs Hxs. eapply Forall_impl; [|exact Hxs]. intros [r c] Hrc.
    destruct (coord2letter_P P g r c Hrc Hsz HL) as [s0 [Hs0 HPs0]].
    cbn [fst snd]. rewrite Hs0. cbn [bind]. eexists; split; [reflexivity|].
    unfold bracket. apply Forall_app3; [apply ustr_P; reflexivity | exact HPs0 |
                                        apply ustr_P; reflexivity]. }
  apply stage_list with (tag := ustr "AB"); [reflexivity | apply ustr_P; reflexivity
                                             | exact F2 | |].
  { apply py_set_iter_Forall, Hcoord, Hb. }
  intros b3 F3.
  apply stage_list with (tag := ustr "AW"); [reflexivity | apply ustr_P; reflexivity
                                             | exact F3 | |].
  { apply py_set_iter_Forall, Hcoord, Hw. }
  intros b4 F4.
  apply stage_list with (tag := ustr "LB"); [reflexivity | apply ustr_P; reflexivity
                                             | exact F4 | |].
  - apply Forall_forall. intros [[l r] c] Hin. apply py_set_iter_incl in Hin.
    assert (Hrc : coord_in g (r, c))
      by (exact (proj1 (Forall_forall _ _) Hm _ Hin)).
    assert (Hl : Forall P l)
      by (exact (proj1 (Forall_forall _ _) Hml _ Hin)).
    destruct (coord2letter_P P g r c Hrc Hsz HL) as [s0 [Hs0 HPs0]].
    rewrite Hs0. cbn [bind]. eexists; split; [reflexivity|].
    unfold bracket. apply Forall_app3; [apply ustr_P; reflexivity | |
                                        apply ustr_P; reflexivity].
    apply Forall_app3; [exact HPs0 | apply ustr_P; reflexivity | exact Hl].
  - intros b5 F5. apply stage_end. exact F5.
Qed.
End SerializeShape.

(** ** [serialize] succeeds, and [merge_sgfs] reads back its lines *)

Definition encodable (c : Z) : Prop := ~ (55296 <= c < 57344).

Lemma encode_utf8_ok (s : pystr) :
  Forall encodable s -> exists b, encode_utf8 s = Ok b.
Proof.
  induction s as [|c r IH]; intros H; cbn; [eexists; reflexivity|].
  inversion H as [|? ? Hc Hr]; subst. destruct (IH Hr) as [b Hb].
  unfold utf8_cp.
  destruct (c <? 128); [cbn; rewrite Hb; eexists; reflexivity|].
  destruct (c <? 2048); [cbn; rewrite Hb; eexists; reflexivity|].
  replace ((55296 <=? c) && (c <? 57344)) with false
    by (symmetry; apply andb_false_iff; unfold encodable in Hc;
        destruct (Z.leb_spec 55296 c); [right; apply Z.ltb_ge; lia | left; reflexivity]).
  destruct (c <? 65536); cbn; rewrite Hb; eexists; reflexivity.
Qed.

Lemma serialize_ok (str_hash : pystr -> Z) (g : SimpleSGF)
    (Hb : Forall (coord_in g) (setup_black g))
    (Hw : Forall (coord_in g) (setup_white g))
    (Hm : Forall (mark_in g) (marks g))
    (Hsz0 : 0 <= size g)
    (Hsz : size g + 96 < 55296)
    (Hc : forall c, comment g = Some c -> Forall encodable c)
    (Hp : Forall encodable (player g))
    (Hml : Forall (fun m => Forall encodable (fst (fst m))) (marks g)) :
  exists bytes, serialize str_hash g = Ok bytes.
Proof.
  destruct (serialize_text_shape encodable
              ltac:(intros c Hc'; unfold encodable; lia) str_hash g Hb Hw Hm Hsz0
              ltac:(lia) ltac:(intros c Hc'; unfold encodable; lia) Hc Hp Hml)
    as [ls [Ht Hls]].
  unfold serialize. rewrite Ht. cbn [bind]. apply encode_utf8_ok.
  unfold sgf_text.
  assert (Ha : forall s : string,
             forallb (fun c => (32 <=? c) && (c <? 127)) (ustr s) = true ->
             Forall encodable (ustr s))
    by (intros s Hs; apply ustr_P; [intros c Hc'; unfold encodable; lia | exact Hs]).
  assert (Hls' : Forall encodable (List.concat (map (cons 10) ls))).
  { clear Ht. induction ls as [|l ls IH]; cbn; [constructor|].
    inversion Hls; subst. constructor; [unfold encodable; lia|].
    apply Forall_app; split; [assumption | apply IH; assumption]. }
  assert (Hh : Forall encodable (sgf_head g))
    by (apply head_P; intros c Hc'; unfold encodable; lia).
  apply Forall_app; split; [apply Ha; reflexivity|].
  apply Forall_app; split; [exact Hh|].
  apply Forall_app; split; [exact Hls'|].
  apply Forall_app; split; [repeat constructor; unfold encodable; lia|].
  apply Forall_app; split; [apply Ha; reflexivity|].
  repeat constructor; unfold encodable; lia.
Qed.

(** [serialize] raises nothing (neither [ValueError] from [chr] nor
    [UnicodeEncodeError] from the encoding) on a board whose stones and
    labels lie in [0, size) x [0, size), with [size] non-negative and
    [size + 96] below the surrogate range, and whose comment, player and label texts contain no
    lone surrogate. *)
Theorem serialize_succeeds (str_hash : pystr -> Z) (g : SimpleSGF)
    (Hb : Forall (coord_in g) (setup_black g))
    (Hw : Forall (coord_in g) (setup_white g))
    (Hm : Forall (mark_in g) (marks g))
    (Hsz0 : 0 <= size g)
    (Hsz : size g + 96 < 55296)
    (Hc : forall c, comment g = Some c -> Forall encodable c)
    (Hp : Forall encodable (player g))
    (Hml : Forall (fun m => Forall encodable (fst (fst m))) (marks g)) :
  exists bytes, serialize str_hash g = Ok bytes.
Proof. exact (serialize_ok str_hash g Hb Hw Hm Hsz0 Hsz Hc Hp Hml). Qed.

Lemma serialize_succeeds_witness :
  exists bytes,
    serialize sample_hash
      (set_comment (tex2sgf (ustr "A@" ++ [10] ++ ustr ".!")) (ustr "1. black to play"))
    = Ok bytes.
Proof.
  apply serialize_succeeds; vm_compute;
    repeat (constructor || lia || discriminate || (intros c Hc; injection Hc as <-)
            || (intros [Hge _]; apply Hge; reflexivity)).
Defined.

Definition no_nl (c : Z) : Prop := c <> 10 /\ c <> 13.

Lemma split_nl_app (a r : pystr) :
  Forall no_nl a -> split_nl (a ++ 10 :: r) = a :: split_nl r.
Proof.
  induction a as [|c a IH]; intros H; cbn; [reflexivity|].
  inversion H as [|? ? [Hc _] Ha]; subst. rewrite IH by exact Ha.
  replace (Z.eqb c 10) with false by (symmetry; apply Z.eqb_neq; exact Hc).
  reflexivity.
Qed.

Lemma split_nl_lines (a : pystr) (ls : list pystr) (r : pystr) :
  Forall no_nl a -> Forall (Forall no_nl) ls ->
  split_nl (a ++ List.concat (map (cons 10) ls) ++ 10 :: r) = a :: ls ++ split_nl r.
Proof.
  revert a. induction ls as [|l ls IH]; intros a Ha Hls.
  - cbn. apply split_nl_app. exact Ha.
  - inversion Hls as [|? ? Hl Hls']; subst.
    assert (E : a ++ List.concat (map (cons 10) (l :: ls)) ++ 10 :: r =
                a ++ 10 :: (l ++ List.concat (map (cons 10) ls) ++ 10 :: r))
      by (cbn; rewrite <- app_assoc; reflexivity).
    rewrite E, split_nl_app by exact Ha. cbn [app].
    f_equal. apply IH; assumption.
Qed.

Lemma universal_newlines_id (t : pystr) :
  Forall (fun c => c <> 13) t -> universal_newlines t = t.
Proof.
  induction t as [|c r IH]; intros H; [reflexivity|].
  inversion H as [|? ? Hc Hr]; subst.
  destruct (Z.eq_dec c 13) as [->|Hne]; [contradiction|].
  transitivity (c :: universal_newlines r); [|now rewrite IH].
  destruct c as [|p|p]; [reflexivity| |reflexivity].
  destruct p; try reflexivity; try (destruct p; try reflexivity);
    try (destruct p; try reflexivity); try (destruct p; try reflexivity);
    exfalso; apply Hne; reflexivity.
Qed.

(** A file written by [serialize] and read back by [merge_sgfs] (in text
    mode, whose universal newlines turn ["\r"] into ["\n"], with a UTF-8
    locale so that the text read is the text [serialize] encoded) loses
    exactly its first line (the [(;FF[4]GM[1]SZ[n]] header) and its
    [CA[UTF-8])] terminator: the merged game is the remaining property
    lines (comment, player, stones, labels), joined without newlines, in
    one node [(;...)] after the collection header.  The hypotheses are
    those under which [serialize] succeeds, with no ["\n"] or ["\r"] inside
    the comment, player or label texts, and a file name whose sort key can
    be computed. *)
Theorem merge_sgfs_reads_serialized (dec : decimal_db) (str_hash : pystr -> Z)
    (g : SimpleSGF) (name cmt : pystr)
    (Hkey : exists k, sort_key dec name = Ok k)
    (Hb : Forall (coord_in g) (setup_black g))
    (Hw : Forall (coord_in g) (setup_white g))
    (Hm : Forall (mark_in g) (marks g))
    (Hsz0 : 0 <= size g)
    (Hsz : size g + 96 < 1114112)
    (Hc : forall c, comment g = Some c -> Forall no_nl c)
    (Hp : Forall no_nl (player g))
    (Hml : Forall (fun m => Forall no_nl (fst (fst m))) (marks g)) :
  exists t ls,
    serialize_text str_hash g = Ok t /\
    t = ustr "(" ++ sgf_head g ++ List.concat (map (cons 10) ls) ++
        [10] ++ ustr "CA[UTF-8])" ++ [10] /\
    merge_sgfs dec [name] cmt (fun _ => Ok (universal_newlines t)) =
      Ok (ustr "(;FF[4]GM[1]SZ[19]" ++ [10] ++ ustr "C[" ++ cmt ++ ustr "]" ++
          [10] ++ ustr "(;" ++ List.concat ls ++ ustr ")" ++ [10] ++ ustr ")").
Proof.
  assert (Hnl : forall c, 32 <= c < 127 -> no_nl c) by (intros c Hc'; unfold no_nl; lia).
  destruct (serialize_text_shape no_nl Hnl str_hash g Hb Hw Hm Hsz0 Hsz
              ltac:(intros c Hc'; unfold no_nl; lia) Hc Hp Hml) as [ls [Ht Hls]].
  exists (sgf_text g ls), ls. split; [exact Ht|]. split; [reflexivity|].
  destruct Hkey as [k Hk].
  assert (Ha : Forall no_nl (ustr "(" ++ sgf_head g)).
  { apply Forall_app; split; [apply (ustr_P no_nl Hnl); reflexivity | apply head_P; exact Hnl]. }
  assert (Hu : universal_newlines (sgf_text g ls) = sgf_text g ls).
  { apply universal_newlines_id. unfold sgf_text.
    rewrite app_assoc. apply Forall_app; split.
    { eapply Forall_impl; [|exact Ha]. intros c [_ H]; exact H. }
    apply Forall_app; split.
    - clear Ht. induction ls as [|l ls IH]; cbn; [constructor|].
      inversion Hls as [|? ? Hl Hls']; subst. constructor; [lia|].
      apply Forall_app; split; [|now apply IH].
      eapply Forall_impl; [|exact Hl]. intros c [_ H]; exact H.
    - vm_compute. repeat constructor; discriminate. }
  unfold merge_sgfs, sorted_files. cbn [map_result]. rewrite Hk. cbn [bind map_result].
  cbn [fold_left insert_by_key map]. rewrite Hu.
  unfold sgf_text.
  rewrite (app_assoc (ustr "(") (sgf_head g)).
  change ([10] ++ ustr "CA[UTF-8])" ++ [10]) with (10 :: (ustr "CA[UTF-8])" ++ [10])).
  rewrite (split_nl_lines _ ls _ Ha Hls).
  unfold body_lines.
  change (split_nl (ustr "CA[UTF-8])" ++ [10])) with [ustr "CA[UTF-8])"; []].
  cbn [skipn]. rewrite length_cons, length_app. cbn [List.length].
  replace (S (List.length ls + 2) - 3)%nat with (List.length ls) by lia.
  rewrite firstn_app, Nat.sub_diag, firstn_O, firstn_all, app_nil_r.
  cbn [bind List.concat map_result snd]. rewrite ?app_nil_r, <- ?app_assoc. reflexivity.
Qed.

Lemma merge_sgfs_reads_serialized_witness :
  exists t ls,
    serialize_text sample_hash
      (set_comment (tex2sgf (ustr "A@" ++ [10] ++ ustr ".!")) (ustr "1. black to play"))
      = Ok t /\
    t = ustr "(" ++ sgf_head (tex2sgf (ustr "A@" ++ [10] ++ ustr ".!")) ++
        List.concat (map (cons 10) ls) ++ [10] ++ ustr "CA[UTF-8])" ++ [10] /\
    merge_sgfs unicode_decimal [ustr "p.sgf"] (ustr "all") (fun _ => Ok (universal_newlines t)) =
      Ok (ustr "(;FF[4]GM[1]SZ[19]" ++ [10] ++ ustr "C[" ++ ustr "all" ++ ustr "]" ++
          [10] ++ ustr "(;" ++ List.concat ls ++ ustr ")" ++ [10] ++ ustr ")").
Proof.
  apply (merge_sgfs_reads_serialized unicode_decimal sample_hash
           (set_comment (tex2sgf (ustr "A@" ++ [10] ++ ustr ".!")) (ustr "1. black to play"))
           (ustr "p.sgf") (ustr "all"));
    [eexists; vm_compute; reflexivity| ..]; vm_compute;
    repeat (constructor || lia || discriminate || (intros c Hc; injection Hc as <-)
            || (intros Heq; discriminate Heq)).
Defined.

(** ** [render_sgf]: the command handed to [sgf-render] *)

Inductive ShrinkWrapOption := NO | YES | ROW_ONLY.

(** [min(moves, key=lambda x: x[0])[0]] for [moves = setup_black |
    setup_white]: the least row ([ValueError] when there is no stone). *)
Definition min_row (g : SimpleSGF) : result Z :=
  match setup_black g ++ setup_white g with
  | [] => Err ValueError
  | m :: ms => Ok (fold_left (fun a p => Z.min a (fst p)) ms (fst m))
  end.

(** [render_sgf] up to the [subprocess.call]: the bytes written to the
    temporary file and the command list.  [min(a, b)] on strings returns
    [b] only when [b < a]; string [<] is [lex_lt] on code points. *)
Definition render_sgf_cmd (str_hash : pystr -> Z) (g : SimpleSGF)
    (temp_name output_filename : pystr)
    (shrink_wrap : ShrinkWrapOption) : result (list Z * list pystr) :=
  data <- serialize str_hash g;;
  let cmd := [ustr "sgf-render"; temp_name; ustr "--style"; ustr "minimalist";
              ustr "--no-board-labels"; ustr "-o"; output_filename] in
  match shrink_wrap with
  | NO => Ok (data, cmd)
  | YES => Ok (data, cmd ++ [ustr "-s"])
  | ROW_ONLY =>
      m <- min_row g;;
      c <- chr (size g - m + 97);;
      let v := if lex_lt (ustr "s") c then ustr "s" else c in
      Ok (data, cmd ++ [ustr "-r"; ustr "aa-s" ++ v])
  end.

Lemma min_row_fold (ms : list (Z * Z)) (a : Z) :
  let r := fold_left (fun a p => Z.min a (fst p)) ms a in
  (r = a \/ In r (map fst ms)) /\ r <= a /\ Forall (fun p => r <= fst p) ms.
Proof.
  cbn zeta. revert a. induction ms as [|p ms IH]; intros a; cbn.
  - split; [left; reflexivity | split; [lia | constructor]].
  - destruct (IH (Z.min a (fst p))) as [Hin [Hle Hall]].
    split; [|split; [lia | constructor; [lia | exact Hall]]].
    destruct Hin as [Hin | Hin]; [|right; right; exact Hin].
    destruct (Z.min_spec a (fst p)) as [[_ E] | [_ E]]; rewrite E in Hin |- *;
      [left; exact Hin | right; left; symmetry; exact Hin].
Qed.

Lemma min_row_spec (m : Z * Z) (ms : list (Z * Z)) :
  let r := fold_left (fun a p => Z.min a (fst p)) ms (fst m) in
  In r (map fst (m :: ms)) /\ Forall (fun p => r <= fst p) (m :: ms).
Proof.
  cbn zeta. destruct (min_row_fold ms (fst m)) as [Hin [Hle Hall]].
  split; [destruct Hin; [left; auto | right; auto] | constructor; auto].
Qed.

(** With the row-only option, a board without stones makes [render_sgf]
    raise [ValueError] (from [min] of an empty set) once its SGF is
    written, before [sgf-render] runs. *)
Theorem render_row_only_no_stones (str_hash : pystr -> Z) (g : SimpleSGF) (tmp out : pystr) (data : list Z)
    (Hser : serialize str_hash g = Ok data)
    (Hb : setup_black g = []) (Hw : setup_white g = []) :
  render_sgf_cmd str_hash g tmp out ROW_ONLY = Err ValueError.
Proof.
  unfold render_sgf_cmd. rewrite Hser. cbn [bind].
  unfold min_row. rewrite Hb, Hw. reflexivity.
Qed.

Lemma render_row_only_no_stones_witness :
  serialize sample_hash (tex2sgf (ustr "A.")) =
    Ok (ustr "(;FF[4]GM[1]SZ[19]" ++ [10] ++ ustr "PL[B]" ++ [10] ++
        ustr "LB[aa:A]" ++ [10] ++ ustr "CA[UTF-8])" ++ [10]) /\
  render_sgf_cmd sample_hash (tex2sgf (ustr "A.")) (ustr "t") (ustr "o.svg") ROW_ONLY = Err ValueError.
Proof.
  split; [vm_compute; reflexivity|].
  apply (render_row_only_no_stones sample_hash _ _ _
    (ustr "(;FF[4]GM[1]SZ[19]" ++ [10] ++ ustr "PL[B]" ++ [10] ++
     ustr "LB[aa:A]" ++ [10] ++ ustr "CA[UTF-8])" ++ [10]));
    vm_compute; reflexivity.
Defined.

(** With the row-only option on a board with stones, the crop passed as
    [-r] is [aa-s] followed by the letter one row below the lowest stone
    in SGF coordinates ([chr(size - m + 97)] for the least row [m]),
    clamped to ['s'], and the rest of the command is unchanged. *)
Theorem render_row_only_crop (str_hash : pystr -> Z) (g : SimpleSGF) (tmp out : pystr) (data : list Z)
    (p : Z * Z) (Hser : serialize str_hash g = Ok data)
    (Hp : In p (setup_black g ++ setup_white g))
    (Hrows : Forall (fun q => 0 <= fst q < size g) (setup_black g ++ setup_white g))
    (Hsz : size g + 97 < 1114112) :
  exists m,
    In m (map fst (setup_black g ++ setup_white g)) /\
    Forall (fun q => m <= fst q) (setup_black g ++ setup_white g) /\
    render_sgf_cmd str_hash g tmp out ROW_ONLY =
      Ok (data, [ustr "sgf-render"; tmp; ustr "--style"; ustr "minimalist";
                 ustr "--no-board-labels"; ustr "-o"; out; ustr "-r";
                 ustr "aa-s" ++ [Z.min (size g - m + 97) 115]]).
Proof.
  unfold render_sgf_cmd. rewrite Hser. cbn [bind].
  unfold min_row.
  destruct (setup_black g ++ setup_white g) as [|q qs] eqn:E; [destruct Hp|].
  pose proof (min_row_spec q qs) as [Hin Hall]. cbn zeta in Hin, Hall.
  set (m := fold_left (fun a p0 => Z.min a (fst p0)) qs (fst q)) in *.
  exists m. split; [exact Hin|]. split; [exact Hall|]. cbn [bind].
  assert (Hm : 0 <= m < size g).
  { apply in_map_iff in Hin as [q' [Hq' Hin']]. rewrite <- Hq'.
    exact (proj1 (Forall_forall _ _) Hrows q' Hin'). }
  unfold chr.
  replace ((0 <=? size g - m + 97) && (size g - m + 97 <? 1114112)) with true
    by (symmetry; apply andb_true_iff; split; [apply Z.leb_le | apply Z.ltb_lt]; lia).
  cbn [bind lex_lt ustr].
  change (ustr "s") with [115].
  cbn [lex_lt].
  destruct (Z.ltb_spec 115 (size g - m + 97)).
  - rewrite Z.min_r by lia. reflexivity.
  - replace (size g - m + 97 <? 115) with (size g - m + 97 <? 115) by reflexivity.
    destruct (Z.ltb_spec (size g - m + 97) 115).
    + rewrite Z.min_l by lia. reflexivity.
    + replace (size g - m + 97) with 115 by lia. reflexivity.
Qed.

Lemma render_row_only_crop_witness :
  exists m,
    In m (map fst (setup_black (tex2sgf (ustr "." ++ [10] ++ ustr "@") ) ++
                   setup_white (tex2sgf (ustr "." ++ [10] ++ ustr "@")))) /\
    Forall (fun q => m <= fst q) (setup_black (tex2sgf (ustr "." ++ [10] ++ ustr "@")) ++
                                  setup_white (tex2sgf (ustr "." ++ [10] ++ ustr "@"))) /\
    render_sgf_cmd sample_hash (tex2sgf (ustr "." ++ [10] ++ ustr "@")) (ustr "t") (ustr "o") ROW_ONLY =
      Ok (ustr "(;FF[4]GM[1]SZ[19]" ++ [10] ++ ustr "PL[B]" ++ [10] ++
          ustr "AB[ab]" ++ [10] ++ ustr "CA[UTF-8])" ++ [10],
          [ustr "sgf-render"; ustr "t"; ustr "--style"; ustr "minimalist";
           ustr "--no-board-labels"; ustr "-o"; ustr "o"; ustr "-r";
           ustr "aa-s" ++ [Z.min (size (tex2sgf (ustr "." ++ [10] ++ ustr "@")) - m + 97) 115]]).
Proof.
  apply (render_row_only_crop sample_hash _ _ _
    (ustr "(;FF[4]GM[1]SZ[19]" ++ [10] ++ ustr "PL[B]" ++ [10] ++
     ustr "AB[ab]" ++ [10] ++ ustr "CA[UTF-8])" ++ [10]) (17, 0)).
  - vm_compute; reflexivity.
  - vm_compute; left; reflexivity.
  - vm_compute; repeat constructor; discriminate.
  - vm_compute; reflexivity.
Defined.

(** ** [extract_sgf] without normalisation and without rendering *)







(** ** Empty comment *)

